(** * Wildcard expansion engine of the Impact Pack: a shallow embedding

    The engine is documented in
    [custom_nodes/comfyui-impact-pack/docs/wildcards/WILDCARD_SYSTEM_DESIGN.md]
    (cited below as DESIGN), [WILDCARD_SYSTEM_PRD.md] (PRD) and the project
    summary (SUMMARY).  Each definition below names the section it is
    translated from.  Text is [string]; a Python [dict] that is only looked
    up and assigned is a [gmap]; a [dict] that is iterated is an
    insertion-ordered association list.  The last module of the
    definitions embeds the output-port handlers of the inversed switch
    node, [custom_nodes/ComfyUI-WBLESS/web/nodes/inversed_switch.js]. *)

From Stdlib Require Import Strings.String Strings.Ascii Lists.List ZArith QArith Qround Lia Lqa Bool.
From Stdlib Require Import DecimalString.
From stdpp Require Import gmap strings list.
Import ListNotations.

Local Open Scope string_scope.
Local Open Scope list_scope.

(** ** Python string primitives used by the engine *)
Module Text.

(** [s.startswith(p)] *)
Fixpoint startswith (p s : string) : bool :=
  match p, s with
  | EmptyString, _ => true
  | String a p', String b s' => Ascii.eqb a b && startswith p' s'
  | String _ _, EmptyString => false
  end.

(** [sub in s] *)
Fixpoint contains (sub s : string) : bool :=
  startswith sub s ||
  match s with
  | EmptyString => false
  | String _ s' => contains sub s'
  end.

Fixpoint rev_acc (s acc : string) : string :=
  match s with
  | EmptyString => acc
  | String a s' => rev_acc s' (String a acc)
  end.

Definition rev (s : string) : string := rev_acc s EmptyString.

(** [s.endswith(p)] *)
Definition endswith (p s : string) : bool := startswith (rev p) (rev s).

(** ASCII white space, the characters [str.strip()] removes from ASCII
    text; the white space beyond ASCII is not modelled. *)
Definition is_space (a : ascii) : bool :=
  let n := nat_of_ascii a in
  (Nat.leb 9 n && Nat.leb n 13) || (Nat.leb 28 n && Nat.leb n 32).

(** [s.lstrip()] *)
Fixpoint lstrip (s : string) : string :=
  match s with
  | EmptyString => EmptyString
  | String a s' => if is_space a then lstrip s' else s
  end.

(** [s.strip()] *)
Definition strip (s : string) : string := rev (lstrip (rev (lstrip s))).

Definition lower_ascii (a : ascii) : ascii :=
  let n := nat_of_ascii a in
  if Nat.leb 65 n && Nat.leb n 90 then ascii_of_nat (n + 32) else a.

(** [s.lower()] on ASCII text: the letters [A] to [Z] are lowered and
    every other character, those beyond ASCII included, is left as it
    is. *)
Fixpoint lower (s : string) : string :=
  match s with
  | EmptyString => EmptyString
  | String a s' => String (lower_ascii a) (lower s')
  end.

(** [s.replace(a, b)] for single characters *)
Fixpoint replace_char (a b : ascii) (s : string) : string :=
  match s with
  | EmptyString => EmptyString
  | String c s' => String (if Ascii.eqb c a then b else c) (replace_char a b s')
  end.

(** [s.split(c)] for a one-character separator: never the empty list. *)
Fixpoint split_on (c : ascii) (s : string) : list string :=
  match s with
  | EmptyString => [EmptyString]
  | String a s' =>
      if Ascii.eqb a c then EmptyString :: split_on c s'
      else match split_on c s' with
           | [] => [String a EmptyString]
           | w :: ws => String a w :: ws
           end
  end.

(** [sep.join(l)] *)
Definition join (sep : string) (l : list string) : string := String.concat sep l.

Definition is_empty (s : string) : bool :=
  match s with EmptyString => true | _ => false end.

(** [c in s] for a character *)
Fixpoint has_char (c : ascii) (s : string) : bool :=
  match s with
  | EmptyString => false
  | String a s' => Ascii.eqb a c || has_char c s'
  end.

(** [s.isascii()]: every character of [s] is below 128.  On such text
    [lower] above is [str.lower]; beyond it [str.lower] follows the Unicode
    case mappings, which are not modelled. *)
Fixpoint is_ascii (s : string) : bool :=
  match s with
  | EmptyString => true
  | String a s' => Nat.ltb (nat_of_ascii a) 128 && is_ascii s'
  end.

Definition newline : ascii := ascii_of_nat 10.
Definition nl : string := String newline EmptyString.

End Text.

(** ** Flat backing files (DESIGN 4.1, SUMMARY "Empty Line Filtering") *)
Module Loader.
Import Text.

(** A comment line of a backing file: [x.strip().startswith('#')]. *)
Definition is_comment (x : string) : bool := startswith "#" (strip x).

(** A line that is empty after trimming: [not x.strip()]. *)
Definition is_blank (x : string) : bool := is_empty (strip x).

(** The snippet of DESIGN 4.1:
    [lines = f.read().splitlines();
     return [x for x in lines if not x.strip().startswith('#')]].
    The argument is the file already cut into lines. *)
Definition load_txt_wildcard (lines : list string) : list string :=
  List.filter (fun x => negb (is_comment x)) lines.

(** The filter of the implementation (SUMMARY, Key Implementations /
    Empty Line Filtering):
    [[x for x in lines if x.strip() and not x.strip().startswith('#')]].
    This is the one the store loads a file with. *)
Definition filter_lines (lines : list string) : list string :=
  List.filter (fun x => negb (is_blank x) && negb (is_comment x)) lines.

End Loader.

(** ** Comment stripper (PRD 2.1 "Comments") *)
Module Comment.
Import Text.

(** PRD: "Lines starting with # are treated as comments and removed". *)
Definition is_comment_line (line : string) : bool := startswith "#" line.

(** Appends [' ' + line] to the last kept line. *)
Fixpoint append_to_last (acc : list string) (line : string) : list string :=
  match acc with
  | [] => [line]
  | [l] => [l +:+ " " +:+ line]
  | l :: acc' => l :: append_to_last acc' line
  end.

(** One line of the scan: [acc] are the lines kept so far, [flag] tells
    that comment lines were dropped since the last kept line. *)
Definition comment_step (st : list string * bool) (line : string)
  : list string * bool :=
  let '(acc, flag) := st in
  if is_comment_line line then (acc, true)
  else match acc with
       | [] => ([line], false)
       | _ => if flag then (append_to_last acc line, false)
              else (acc ++ [line], false)
       end.

(** A kept line: not a comment line, and a single line. *)
Definition kept (l : string) : Prop :=
  is_comment_line l = false /\ has_char newline l = false.

(** Modelled from the spec: the body of [process_comment_out] (in
    modules/impact/wildcards.py) is not part of the sources.  Spec 4.1 and
    PRD 2.1 describe it differently (the spec: "any text from an unescaped
    [#] to end-of-line"; the PRD: "lines starting with [#]"); where they
    differ this follows the PRD, which is part of the sources and gives the
    behaviour with a worked example: "Lines starting with [#] are treated
    as comments and removed", "Text following a comment is separated by
    single blank space from text before comment", and a [#] after other
    text on a line is "not a comment". *)
Definition process_comment_out (text : string) : string :=
  join nl (fst (fold_left comment_step (split_on newline text) ([], false))).

End Comment.

(** ** Path validation of the file lookup (DESIGN 9.1) *)
Module Security.
Import Text.

(** [posixpath.normpath]: one component of the path. *)
Definition norm_step (initial_slashes : nat) (new_comps : list string)
           (comp : string) : list string :=
  if is_empty comp || String.eqb comp "." then new_comps
  else if negb (String.eqb comp "..")
          || (Nat.eqb initial_slashes 0 && Nat.eqb (length new_comps) 0)
          || (negb (Nat.eqb (length new_comps) 0)
              && String.eqb (List.last new_comps "") "..")
       then new_comps ++ [comp]
       else removelast new_comps.

(** [os.path.normpath] on a POSIX host. *)
Definition normpath (path : string) : string :=
  if is_empty path then "."
  else
    let initial_slashes :=
      if startswith "/" path
      then (if startswith "//" path && negb (startswith "///" path) then 2 else 1)
      else 0 in
    let comps := fold_left (norm_step initial_slashes) (split_on "/" path) [] in
    let p := join "" (repeat "/" initial_slashes) +:+ join "/" comps in
    if is_empty p then "." else p.

(** [os.path.join(a, b)] on a POSIX host. *)
Definition path_join (a b : string) : string :=
  if startswith "/" b then b
  else if is_empty a || endswith "/" a then a +:+ b
  else a +:+ "/" +:+ b.

(** DESIGN 9.1:
    [safe_key = os.path.normpath(key)
     if '..' in safe_key or safe_key.startswith('/'): return None
     file_path = os.path.join(wildcards_path, safe_key)
     if not file_path.startswith(wildcards_path): return None
     return file_path] *)
Definition find_wildcard_file (wildcards_path key : string) : option string :=
  let safe_key := normpath key in
  if contains ".." safe_key || startswith "/" safe_key then None
  else
    let file_path := path_join wildcards_path safe_key in
    if negb (startswith wildcards_path file_path) then None
    else Some file_path.

End Security.

(** ** Outcomes of fallible calls *)
Inductive exn : Type :=
| RecursionError   (* the interpreter's recursion limit was reached *)
| TypeError.       (* [list.extend(None)] *)

Inductive result (A : Type) : Type :=
| Ok (a : A)
| Raise (e : exn).
Arguments Ok {A} a.
Arguments Raise {A} e.

(** ** A Python [dict] that is iterated: insertion-ordered association list *)
Module Dict.

Fixpoint get {V : Type} (k : string) (d : list (string * V)) : option V :=
  match d with
  | [] => None
  | (k', v) :: d' => if String.eqb k' k then Some v else get k d'
  end.

(** [d[k] = v]: a present key keeps its position. *)
Fixpoint set {V : Type} (k : string) (v : V) (d : list (string * V))
  : list (string * V) :=
  match d with
  | [] => [(k, v)]
  | (k', v') :: d' =>
      if String.eqb k' k then (k', v) :: d' else (k', v') :: set k v d'
  end.

Definition keys {V : Type} (d : list (string * V)) : list string := map fst d.

End Dict.

(** ** Wildcard store (DESIGN 2.2, 2.3, 2.4) *)
Module Store.
Import Text.

(** DESIGN 2.4.2: [x.lower().replace('\\', '/')]. *)
Definition wildcard_normalize (x : string) : string :=
  replace_char "\" "/" (lower x).

(** DESIGN 2.2.1, pattern matching logic. *)
Definition matches_depth_agnostic (stored_key search_key : string) : bool :=
  String.eqb stored_key search_key
  || endswith ("/" +:+ search_key) stored_key
  || startswith (search_key +:+ "/") stored_key
  || contains ("/" +:+ search_key +:+ "/") stored_key.

(** DESIGN 2.4.1: the global state of on-demand mode.  In full cache mode
    [wildcard_dict] plays the part of [loaded_wildcards], filled at
    startup. *)
Record state : Type := State {
  loaded_wildcards : gmap string (list string);        (* key -> options *)
  available_wildcards : list (string * string)         (* key -> file path *)
}.

(** [loaded_wildcards[key] = data] *)
Definition cache (key : string) (data : list string) (st : state) : state :=
  State (<[key := data]> (loaded_wildcards st)) (available_wildcards st).

(** Calls that read and update the store and may raise. *)
Definition M (X : Type) : Type := state -> result (X * state).

Definition ret {X : Type} (x : X) : M X := fun st => Ok (x, st).

Definition bind {X Y : Type} (m : M X) (k : X -> M Y) : M Y :=
  fun st =>
    match m st with
    | Ok (x, st') => k x st'
    | Raise e => Raise e
    end.

Notation "x <- m ;; k" := (bind m (fun x => k))
  (at level 62, m at next level, right associativity).

(** [remove_extension] of a path that ends with [.txt]. *)
Definition remove_extension (p : string) : string :=
  String.substring 0 (String.length p - 4) p.

(** DESIGN 2.3.2: [scan_wildcard_metadata(path)].  [walk] lists the files
    below [path], relative to it, in the order of the directory walk. *)
Definition scan_step (path : string) (avail : list (string * string))
           (rel_path : string) : list (string * string) :=
  if endswith ".txt" rel_path
  then Dict.set (wildcard_normalize (remove_extension rel_path))
                (Security.path_join path rel_path) avail
  else avail.

Definition scan_wildcard_metadata (path : string) (walk : list string)
           (avail : list (string * string)) : list (string * string) :=
  fold_left (scan_step path) walk avail.

Section Lookup.
(** File discovery and file contents are the host's: [find_wildcard_file]
    returns the path of the backing file of a key, or [None] ("File not
    found", DESIGN 2.3.3); [read_lines p] is
    [open(p).read().splitlines()].  A file that is found is taken to be
    readable: read failures (DESIGN 7.2) are outside this model, the
    lookup below has no outcome for them. *)
Variable find_wildcard_file : string -> option string.
Variable read_lines : string -> list string.

(** The loop [for mk in matched_keys:
                all_options.extend(get_wildcard_value(mk))]. *)
Fixpoint extend_all
         (get : string -> state -> result (option (list string) * state))
         (matched_keys : list string) (all_options : list string)
         (st : state) : result (list string * state) :=
  match matched_keys with
  | [] => Ok (all_options, st)
  | mk :: rest =>
      match get mk st with
      | Raise e => Raise e
      | Ok (None, _) => Raise TypeError
      | Ok (Some v, st') => extend_all get rest (all_options ++ v) st'
      end
  end.

(** Keys of the availability index that match [key]. *)
Definition matched_keys_of (key : string) (st : state) : list string :=
  List.filter (fun k => matches_depth_agnostic k key)
              (Dict.keys (available_wildcards st)).

(** DESIGN 2.2.1: [get_wildcard_value(key)].  [depth] is the number of
    nested calls the interpreter still allows. *)
Fixpoint get_wildcard_value (depth : nat) (key : string) (st : state)
  : result (option (list string) * state) :=
  match depth with
  | O => Raise RecursionError
  | S d =>
      (* Phase 1: direct lookup *)
      match loaded_wildcards st !! key with
      | Some v => Ok (Some v, st)
      | None =>
          (* Phase 2: file discovery *)
          match find_wildcard_file key with
          | Some file_path =>
              let data := Loader.filter_lines (read_lines file_path) in
              Ok (Some data, cache key data st)
          | None =>
              (* Phase 3: depth-agnostic fallback *)
              match matched_keys_of key st with
              | [] => Ok (None, st)
              | mk :: rest =>
                  match extend_all (get_wildcard_value d) (mk :: rest) [] st with
                  | Raise e => Raise e
                  | Ok (all_options, st') =>
                      Ok (Some all_options, cache key all_options st')
                  end
              end
          end
      end
  end.

(** The option list a key has without the fallback: its entry of the
    loaded index, else the content of its backing file. *)
Definition direct (key : string) (st : state) : option (list string) :=
  match loaded_wildcards st !! key with
  | Some v => Some v
  | None =>
      match find_wildcard_file key with
      | Some file_path => Some (Loader.filter_lines (read_lines file_path))
      | None => None
      end
  end.

(** The option lists of [keys], one after the other; [None] when one of the
    keys has none. *)
Fixpoint combined (keys : list string) (st : state) : option (list string) :=
  match keys with
  | [] => Some []
  | k :: rest =>
      match direct k st, combined rest st with
      | Some v, Some w => Some (v ++ w)
      | _, _ => None
      end
  end.

(** What [get_wildcard_value(key)] returns in state [st], as a function of
    the state alone; [None] when the call does not return. *)
Definition denote (key : string) (st : state) : option (option (list string)) :=
  match direct key st with
  | Some v => Some (Some v)
  | None =>
      match matched_keys_of key st with
      | [] => Some None
      | mk :: rest => option_map Some (combined (mk :: rest) st)
      end
  end.

(** [st] is [st0] with more entries loaded, each of them what
    [get_wildcard_value] returns for its key in [st0]. *)
Definition coherent (st0 st : state) : Prop :=
  available_wildcards st = available_wildcards st0
  /\ (forall k v, loaded_wildcards st !! k = Some v -> denote k st0 = Some (Some v))
  /\ (forall k, loaded_wildcards st !! k = None -> loaded_wildcards st0 !! k = None).

(** Every key of the availability index is loaded or has a backing file. *)
Definition loadable (st : state) : Prop :=
  forall k, In k (Dict.keys (available_wildcards st)) -> direct k st <> None.

(** A call whose result does not depend on what has been loaded since
    [st0], and which raises, if at all, [RecursionError] and only when a key
    of the index has no option list. *)
Definition settled {X : Type} (st0 : state) (m : M X) : Prop :=
  (exists x, forall st, coherent st0 st ->
                        exists st', m st = Ok (x, st') /\ coherent st0 st')
  \/ (~ loadable st0
      /\ forall st, coherent st0 st -> m st = Raise RecursionError).

End Lookup.

(** The interpreter's default recursion limit. *)
Definition recursion_limit : nat := 1000.

End Store.

(** ** Selection engine (DESIGN 2.1.2; spec 4.3 and 4.5)

    The sources give the algorithm of [replace_options] in four steps
    (parse the weight prefix, normalize, draw by the probabilities,
    multi-select with separators) and none of its code; what the steps leave
    open is modelled from the spec and marked so. *)
Module Select.
Import Text.

(** An option of a block with its weight. *)
Record WeightedOption : Type := WOption { weight : Q; text : string }.

Definition is_digit (a : ascii) : bool :=
  let n := nat_of_ascii a in Nat.leb 48 n && Nat.leb n 57.

(** Value of a run of decimal digits; [None] when another character occurs. *)
Fixpoint digits_value (s : string) (acc : nat) : option nat :=
  match s with
  | EmptyString => Some acc
  | String a s' =>
      if is_digit a then digits_value s' (10 * acc + (nat_of_ascii a - 48))
      else None
  end.

(** A non-empty run of digits. *)
Definition parse_nat (s : string) : option nat :=
  if is_empty s then None else digits_value s 0.

(** An integer or a simple decimal ([5], [10], [0.5]). *)
Definition parse_number (s : string) : option Q :=
  match split_on "." s with
  | [i] => match parse_nat i with
           | Some n => Some (Z.of_nat n # 1)
           | None => None
           end
  | [i; f] =>
      if is_empty i && is_empty f then None
      else match digits_value i 0, digits_value f 0 with
           | Some n, Some m =>
               let scale := Pos.pow 10 (Pos.of_nat (String.length f)) in
               if is_empty f then Some (Z.of_nat n # 1)
               else Some ((Z.of_nat n * Z.pos scale + Z.of_nat m) # scale)
           | _, _ => None
           end
  | _ => None
  end.

(** Cuts [s] at the first occurrence of [sep]. *)
Fixpoint split_once (sep s : string) : option (string * string) :=
  if startswith sep s
  then Some (EmptyString, String.substring (String.length sep) (String.length s) s)
  else match s with
       | EmptyString => None
       | String c s' =>
           match split_once sep s' with
           | Some (a, b) => Some (String c a, b)
           | None => None
           end
       end.

(** Modelled from the spec: the parser of an option segment is not part of
    the sources.  Spec 4.3: a segment [weight::text] carries the weight
    before [::]; every other segment, [text::weight] included, has
    weight 1 and is kept whole. *)
Definition parse_segment (seg : string) : WeightedOption :=
  match split_once "::" seg with
  | Some (w, t) =>
      match parse_number (strip w) with
      | Some q => WOption q t
      | None => WOption 1%Q seg
      end
  | None => WOption 1%Q seg
  end.

Definition total_weight (ws : list Q) : Q := fold_right Qplus 0%Q ws.

(** DESIGN 2.1.2 step 2: [[w / total for w in weights]].  A block whose
    weights add up to zero is outside this model: there the division
    fails in the program, and is zero here. *)
Definition normalized_probabilities (ws : list Q) : list Q :=
  map (fun w => (w / total_weight ws)%Q) ws.

(** DESIGN 2.1.2 step 3, one draw of [np.random.choice(p=ps)] from a
    uniform [u] in [0,1): the first index whose cumulative probability
    exceeds [u] (the last index when none does). *)
Fixpoint pick (ps : list Q) (u : Q) : nat :=
  match ps with
  | [] => 0
  | [_] => 0
  | p :: ps' => if Qle_bool p u then S (pick ps' (u - p)%Q) else 0
  end.

(** The lower end of the interval of draws that select option [i]: the sum
    of the probabilities before it. *)
Definition cumulative (ps : list Q) (i : nat) : Q := total_weight (firstn i ps).

(** [del l[i]] *)
Fixpoint remove_nth {A : Type} (i : nat) (l : list A) : list A :=
  match l, i with
  | [], _ => []
  | _ :: l', O => l'
  | x :: l', S j => x :: remove_nth j l'
  end.

(** Options with their position in the block. *)
Definition enumerate {A : Type} (l : list A) : list (nat * A) :=
  combine (seq 0 (length l)) l.

(** Uniform integer below [n] from a uniform [u] in [0,1); a draw outside
    [0,1) gives the nearest index. *)
Definition below (n : nat) (u : Q) : nat :=
  Nat.min (Z.to_nat (Qfloor (u * (Z.of_nat n # 1))%Q)) (n - 1).

Section Draws.
(** The pseudo-random generator is the host's: [random g] is one call of
    the generator in state [g], a number in [0,1) and the next state. *)
Context {G : Type}.
Variable random : G -> Q * G.

(** Modelled from the spec: the sampler is not part of the sources.
    Spec 4.5 [choose(options, count)]: weighted sampling without
    replacement, one option per draw, by the normalized weights of the
    options still available. *)
Fixpoint choose (count : nat) (opts : list (nat * WeightedOption)) (g : G)
  : list (nat * WeightedOption) * G :=
  match count with
  | O => ([], g)
  | S c =>
      match opts with
      | [] => ([], g)
      | _ :: _ =>
          let u := fst (random g) in
          let i := pick (normalized_probabilities (map (fun o => weight (snd o)) opts)) u in
          match nth_error opts i with
          | Some o =>
              let r := choose c (remove_nth i opts) (snd (random g)) in
              (o :: fst r, snd r)
          | None => ([], snd (random g))
          end
      end
  end.

(** [random.choice(options)] *)
Definition choice (options : list string) (g : G) : string * G :=
  (nth (below (length options) (fst (random g))) options EmptyString,
   snd (random g)).

(** Uniform integer of [lo, hi]. *)
Definition randint (lo hi : nat) (g : G) : nat * G :=
  (lo + below (S (hi - lo)) (fst (random g)), snd (random g)).

End Draws.

End Select.

(** ** Dynamic-option blocks (DESIGN 2.1.2; spec 4.3)

    The syntax of the blocks is the one DESIGN 2.1.2 and PRD 2.2 list; the
    scanner itself is not part of the sources and is modelled from the
    spec. *)
Module Options.
Import Text Select.

Definition open_brace : ascii := "{".
Definition close_brace : ascii := "}".
Definition pipe : ascii := "|".

(** Modelled from the spec: the splitting of a block is not part of the
    sources.  Spec 4.3, bracket-depth-aware splitting: the body of a block
    is cut at the [|] that are outside inner blocks. *)
Fixpoint split_top (s : string) (depth : nat) : list string :=
  match s with
  | EmptyString => [EmptyString]
  | String c s' =>
      if Ascii.eqb c pipe && Nat.eqb depth 0 then EmptyString :: split_top s' depth
      else
        let depth' := if Ascii.eqb c open_brace then S depth
                      else if Ascii.eqb c close_brace then Nat.pred depth
                      else depth in
        match split_top s' depth' with
        | [] => [String c EmptyString]
        | w :: ws => String c w :: ws
        end
  end.

(** The count prefix of a multi-select block: [n], [n1-n2] or [-n]. *)
Definition parse_range (s : string) : option (nat * nat) :=
  match split_on "-" s with
  | [n] => match parse_nat n with
           | Some k => Some (k, k)
           | None => None
           end
  | [a; b] =>
      match parse_nat b with
      | Some hi =>
          if is_empty a then Some (1, hi)
          else match parse_nat a with
               | Some lo => Some (lo, hi)
               | None => None
               end
      | None => None
      end
  | _ => None
  end.

Definition default_separator : string := ", ".

(** Modelled from the spec: the parser of the count prefix is not part of
    the sources.  Spec 4.3 and PRD 2.2: a block [n$$...], [n1-n2$$...] or
    [-n$$...], with a separator and a second [$$] or without.  The parts of
    a block: the range of the count (multi-select only), the separator and
    the text of the options. *)
Definition parse_block (content : string)
  : option (nat * nat) * string * string :=
  match split_once "$$" content with
  | Some (prefix, rest) =>
      match parse_range prefix with
      | Some range =>
          match split_once "$$" rest with
          | Some (sep, body) => (Some range, sep, body)
          | None => (Some range, default_separator, rest)
          end
      | None => (None, default_separator, content)
      end
  | None => (None, default_separator, content)
  end.

(** The weighted options of a block, with their positions. *)
Definition block_options (body : string) : list (nat * WeightedOption) :=
  enumerate (map parse_segment (split_top body 0)).

(** Number of blocks open after [s], when [depth] are open before it.  A
    closing brace outside every block is a plain character. *)
Fixpoint final_depth (s : string) (depth : nat) : nat :=
  match s with
  | EmptyString => depth
  | String c s' =>
      if Ascii.eqb c open_brace then final_depth s' (S depth)
      else if Ascii.eqb c close_brace then final_depth s' (Nat.pred depth)
      else final_depth s' depth
  end.

(** [s] does not close the outermost of the [depth] blocks open before
    it. *)
Fixpoint unclosed (s : string) (depth : nat) : bool :=
  match s with
  | EmptyString => true
  | String c s' =>
      if Ascii.eqb c open_brace then unclosed s' (S depth)
      else if Ascii.eqb c close_brace then
             match depth with
             | S (S d) => unclosed s' (S d)
             | _ => false
             end
           else unclosed s' depth
  end.

Section Expand.
Context {G : Type}.
Variable random : G -> Q * G.

(** Modelled from the spec: the selection of a block is not part of the
    sources.  Spec 4.3: one option without count prefix, otherwise a count
    drawn from the range of the prefix and clamped to the options
    available. *)
Definition select_block (content : string) (g : G)
  : list (nat * WeightedOption) * string * G :=
  let '(range, sep, body) := parse_block content in
  let options := block_options body in
  match range with
  | None => let r := choose random 1 options g in (fst r, sep, snd r)
  | Some (lo, hi) =>
      let c := randint random lo (Nat.max lo hi) g in
      let r := choose random (Nat.min (fst c) (length options)) options (snd c) in
      (fst r, sep, snd r)
  end.

(** Modelled from the spec: the body of [replace_options] is not part of
    the sources.  The replacement of one block [{content}]. *)
Definition expand_block (content : string) (g : G) : string * G :=
  let r := select_block content g in
  (join (snd (fst r)) (map (fun o => text (snd o)) (fst (fst r))), snd r).

(** Modelled from the spec: the scanner of [replace_options] is not part
    of the sources.  Spec 4.3: one pass replaces the outermost blocks, inner
    blocks are left to the next pass, and a block that is never closed is
    copied as it is.  [depth] counts the blocks open at the current
    character and [buf] holds, reversed, the content of the outermost open
    block. *)
Fixpoint scan_options (s : string) (depth : nat) (buf : string) (g : G)
  : string * G :=
  match s with
  | EmptyString =>
      (match depth with
       | O => EmptyString
       | S _ => String open_brace (rev buf)
       end, g)
  | String c s' =>
      match depth with
      | O =>
          if Ascii.eqb c open_brace then scan_options s' 1 EmptyString g
          else let r := scan_options s' 0 EmptyString g in
               (String c (fst r), snd r)
      | S d =>
          if Ascii.eqb c open_brace then scan_options s' (S depth) (String c buf) g
          else if Ascii.eqb c close_brace then
                 match d with
                 | O =>
                     let e := expand_block (rev buf) g in
                     let r := scan_options s' 0 EmptyString (snd e) in
                     (fst e +:+ fst r, snd r)
                 | S _ => scan_options s' d (String c buf) g
                 end
          else scan_options s' depth (String c buf) g
      end
  end.

(** DESIGN 2.1.2: [replace_options(text)], one pass of the scan above. *)
Definition replace_options (text : string) (g : G) : string * G :=
  scan_options text 0 EmptyString g.

End Expand.

End Options.

(** ** Wildcard references and the orchestrator (DESIGN 2.1.1, 2.1.3, 7.3) *)
Module Engine.
Import Text Select Store.

(** What the wildcard pass sees in a text. *)
Inductive token : Type :=
| Chr (c : ascii)                  (* any other character *)
| Ref (name : string)              (* [__name__] *)
| Quant (n : nat) (name : string). (* [N#__name__] *)

Definition is_name_char (a : ascii) : bool :=
  let n := nat_of_ascii a in
  is_digit a
  || (Nat.leb 65 n && Nat.leb n 90) || (Nat.leb 97 n && Nat.leb n 122)
  || Ascii.eqb a "_" || Ascii.eqb a "." || Ascii.eqb a "-" || Ascii.eqb a "+"
  || Ascii.eqb a "/" || Ascii.eqb a "*" || Ascii.eqb a "\".

(** The shortest non-empty run of name characters that [__] follows. *)
Fixpoint read_name (s : string) : option string :=
  match s with
  | EmptyString => None
  | String c s' =>
      if is_name_char c then
        if startswith "__" s' then Some (String c EmptyString)
        else match read_name s' with
             | Some name => Some (String c name)
             | None => None
             end
      else None
  end.

(** A reference [__name__] at the start of [s]. *)
Definition read_ref (s : string) : option string :=
  match s with
  | String "_" (String "_" s') => read_name s'
  | _ => None
  end.

(** A quantifier [N#__name__] at the start of [s]; [digits] are the
    digits read so far.  Gives [N] and the name. *)
Fixpoint read_quant (s : string) (digits : string) : option (nat * string) :=
  match s with
  | EmptyString => None
  | String c s' =>
      if is_digit c then read_quant s' (digits +:+ String c EmptyString)
      else if Ascii.eqb c "#" then
             match parse_nat digits, read_ref s' with
             | Some n, Some name => Some (n, name)
             | _, _ => None
             end
           else None
  end.

(** Number of digits at the start of [s]. *)
Fixpoint leading_digits (s : string) : nat :=
  match s with
  | EmptyString => 0
  | String c s' => if is_digit c then S (leading_digits s') else 0
  end.

(** Modelled from the spec: the token pattern of [replace_wildcard] is not
    part of the sources.  Spec 4.3: [__name__] is a wildcard reference and
    [N#__name__] a quantifier.  [skip] characters of the last token are
    still to be passed over. *)
Fixpoint tokenize (s : string) (skip : nat) : list token :=
  match s with
  | EmptyString => []
  | String c s' =>
      match skip with
      | S k => tokenize s' k
      | O =>
          match read_quant s EmptyString with
          | Some (n, name) =>
              Quant n name
                :: tokenize s' (leading_digits s + String.length name + 4)
          | None =>
              match read_ref s with
              | Some name => Ref name :: tokenize s' (String.length name + 3)
              | None => Chr c :: tokenize s' 0
              end
          end
      end
  end.

(** The text of a reference. *)
Definition ref_text (name : string) : string := "__" +:+ name +:+ "__".

(** PRD 2.1 "Quantifiers": [5#__wildcards__] expands to
    [__wildcards__|__wildcards__|__wildcards__|__wildcards__|__wildcards__]. *)
Definition quantifier_text (n : nat) (name : string) : string :=
  join "|" (repeat (ref_text name) n).

(** The text a token stands for once the quantifiers are expanded. *)
Definition token_text (tk : token) : string :=
  match tk with
  | Chr c => String c EmptyString
  | Ref name => ref_text name
  | Quant n name => quantifier_text n name
  end.

(** Modelled from the spec: the expansion of the quantifiers is not part
    of the sources.  Spec 4.3: [N#__name__] expands to [N] pipe-joined
    repetitions of [__name__], textually, before the option blocks and the
    references are resolved. *)
Definition expand_quantifiers (text : string) : string :=
  join "" (map token_text (tokenize text 0)).

Section Process.
Context {G : Type}.
Variable seed_rng : Z -> G.                 (* [random.seed(seed)] *)
Variable random : G -> Q * G.
Variable find_wildcard_file : string -> option string.
Variable read_lines : string -> list string.

Definition resolve (key : string) : M (option (list string)) :=
  get_wildcard_value find_wildcard_file read_lines recursion_limit key.

(** DESIGN 2.1.3, pattern matching of [__*/name__]:
    [for k in wildcards: if matches_pattern(k, base_name): collect options].
    The sources define neither [wildcards] nor [matches_pattern]; they are
    read here as the availability index and [matches_depth_agnostic]
    (PRD 2.1: "depth-agnostic pattern matching at any directory level"). *)
Definition pattern_options (keyword : string) : M (list string) :=
  if startswith "*/" keyword then
    fun st =>
      let base_name := String.substring 2 (String.length keyword) keyword in
      extend_all resolve (matched_keys_of base_name st) [] st
  else ret [].

(** DESIGN 2.1.3, steps 1 to 4 for one match [__name__]: the replacement
    and the generator after it. *)
Definition replace_ref (name : string) (g : G) : M (string * G) :=
  let keyword := wildcard_normalize name in
  options <- resolve keyword ;;
  match options with
  | Some (o :: os) => ret (choice random (o :: os) g)
  | _ =>
      if contains "*" keyword then
        matched <- pattern_options keyword ;;
        match matched with
        | o :: os => ret (choice random (o :: os) g)
        | [] => ret (ref_text name, g)
        end
      else ret (ref_text name, g)
  end.

Definition replace_token (tk : token) (g : G) : M (string * G) :=
  match tk with
  | Chr c => ret (String c EmptyString, g)
  | Quant n name => ret (quantifier_text n name, g)
  | Ref name => replace_ref name g
  end.

Fixpoint replace_tokens (tks : list token) (g : G) : M (string * G) :=
  match tks with
  | [] => ret (EmptyString, g)
  | tk :: rest =>
      r1 <- replace_token tk g ;;
      r2 <- replace_tokens rest (snd r1) ;;
      ret (fst r1 +:+ fst r2, snd r2)
  end.

(** DESIGN 2.1.3: [replace_wildcard(string)]. *)
Definition replace_wildcard (text : string) (g : G) : M (string * G) :=
  replace_tokens (tokenize text 0) g.

(** DESIGN 2.1.1 steps 3 and 4: one pass.  The quantifiers are expanded
    first, so that the repetitions are options of the block they stand in
    (PRD 2.1: [{2$$, $$5#__wildcards__}]). *)
Definition process_one_pass (text : string) (g : G) : M (string * G) :=
  let r := Options.replace_options random (expand_quantifiers text) g in
  replace_wildcard (fst r) (snd r).

(** The text and the generator after [k] passes over [text], each pass
    made whether or not the one before it changed the text. *)
Fixpoint passes (k : nat) (text : string) (g : G) : M (string * G) :=
  match k with
  | O => ret (text, g)
  | S k' =>
      r <- process_one_pass text g ;;
      passes k' (fst r) (snd r)
  end.

(** What a call returns: the text, and for the record the generator and the
    number of passes made. *)
Record outcome : Type := Outcome {
  out_text : string;
  out_rng : G;
  out_passes : nat
}.

(** DESIGN 7.3: [for i in range(max_iterations)] with [n] iterations
    left and [passes] already made. *)
Fixpoint expand (n : nat) (text : string) (g : G) (passes : nat) : M outcome :=
  match n with
  | O => ret (Outcome text g passes)
  | S n' =>
      r <- process_one_pass text g ;;
      if String.eqb (fst r) text
      then ret (Outcome text (snd r) (S passes))
      else expand n' (fst r) (snd r) (S passes)
  end.

Definition max_iterations : nat := 100.

(** DESIGN 2.1.1 and 7.3: [process(text, seed)]. *)
Definition process (text : string) (seed : Z) : M outcome :=
  expand max_iterations (Comment.process_comment_out text) (seed_rng seed) 0.

End Process.

End Engine.

(** ** Stores and a generator used in the examples *)
Module Examples.

(** A linear congruential generator. *)
Definition lcg (g : Z) : Q * Z :=
  let g' := ((1103515245 * g + 12345) mod 2147483648)%Z in
  ((g' / 65536) # 32768, g').

Definition lookup_in {V : Type} (d : list (string * V)) (default : V) (k : string) : V :=
  match Dict.get k d with
  | Some v => v
  | None => default
  end.

(** Wildcard [A] whose only option is [__B__] and [B] whose only option is
    [__A__]. *)
Definition cyclic_files : list (string * list string) :=
  [("/w/a.txt", ["__B__"]); ("/w/b.txt", ["__A__"])].

Definition cyclic_index : list (string * string) :=
  Store.scan_wildcard_metadata "/w" ["a.txt"; "b.txt"] [].

Definition cyclic_state : Store.state := Store.State ∅ cyclic_index.

Definition cyclic_find (k : string) : option string := Dict.get k cyclic_index.
Definition cyclic_read : string -> list string := lookup_in cyclic_files [].

(** The text after [n] more passes when the passes turn [a] into [b] and
    [b] into [a]. *)
Fixpoint swing (n : nat) (a b : string) : string :=
  match n with
  | O => a
  | S n' => swing n' b a
  end.

(** Backing files at [fantasy/dragon] and [dragon/fire], none at [dragon]. *)
Definition dragon_files : list (string * list string) :=
  [("/w/fantasy/dragon.txt", ["red dragon"; "# comment"; "blue dragon"]);
   ("/w/dragon/fire.txt", ["fire drake"])].

Definition dragon_index : list (string * string) :=
  Store.scan_wildcard_metadata "/w" ["fantasy/dragon.txt"; "dragon/fire.txt"; "readme.md"] [].

Definition dragon_state : Store.state := Store.State ∅ dragon_index.

Definition dragon_find (k : string) : option string := Dict.get k dragon_index.
Definition dragon_read : string -> list string := lookup_in dragon_files [].


End Examples.

(** ** Loading mode (DESIGN 2.3.1) *)
Module Mode.

Inductive loading_mode : Type :=
| FULL_CACHE_MODE
| ON_DEMAND_MODE.

(** [config.wildcard_cache_limit_mb * 1024 * 1024]: the limit in bytes. *)
Definition cache_limit (wildcard_cache_limit_mb : Q) : Q :=
  wildcard_cache_limit_mb * 1024 * 1024.

Definition bytes (size : N) : Q := inject_Z (Z.of_N size).

(** The loop of [calculate_directory_size], from the running [size];
    [files] are the sizes in bytes of the files of the walk, in its
    order. *)
Fixpoint calculate_from (limit : Q) (size : N) (files : list N) : N :=
  match files with
  | [] => size
  | file_size :: rest =>
      let size := (size + file_size)%N in
      if Qle_bool limit (bytes size) then size        (* early termination *)
      else calculate_from limit size rest
  end.

(** DESIGN 2.3.1, early termination: [calculate_directory_size()]. *)
Definition calculate_directory_size (limit : Q) (files : list N) : N :=
  calculate_from limit 0 files.

(** DESIGN 2.3.1, decision algorithm: [determine_loading_mode()]. *)
Definition determine_loading_mode (wildcard_cache_limit_mb : Q)
           (files : list N) : loading_mode :=
  let total_size :=
    calculate_directory_size (cache_limit wildcard_cache_limit_mb) files in
  if Qle_bool (cache_limit wildcard_cache_limit_mb) (bytes total_size)
  then ON_DEMAND_MODE
  else FULL_CACHE_MODE.

(** The size of the whole directory, without early termination. *)
Definition directory_size (files : list N) : N := fold_right N.add 0%N files.

End Mode.

(** ** Configuration paths (SUMMARY "Config Path Quotes") *)
Module Config.
Import Text.

(** [s.lstrip(chars)] *)
Fixpoint lstrip_chars (chars s : string) : string :=
  match s with
  | EmptyString => EmptyString
  | String a s' => if has_char a chars then lstrip_chars chars s' else s
  end.

(** [s.strip(chars)] *)
Definition strip_chars (chars s : string) : string :=
  rev (lstrip_chars chars (rev (lstrip_chars chars s))).

(** The argument of [strip]: the single and the double quote. *)
Definition quotes : string :=
  String (ascii_of_nat 39) (String (ascii_of_nat 34) EmptyString).

(** [conf.get(name, default)] on a section of the configuration file. *)
Definition conf_get (name default : string) (conf : list (string * string))
  : string :=
  match Dict.get name conf with
  | Some v => v
  | None => default
  end.

(** [default_conf.get('custom_wildcards', '').strip(quotes)] *)
Definition custom_wildcards_path (default_conf : list (string * string))
  : string :=
  strip_chars quotes (conf_get "custom_wildcards" "" default_conf).

End Config.

(** ** Listing of the loaded wildcards (DESIGN 3.2) *)
Module Server.

(** The globals the listing reads: the mode flag, the dictionary of full
    cache mode and the two indexes of on-demand mode. *)
Record server : Type := Server {
  on_demand_mode : bool;
  wildcard_dict : gmap string (list string);
  store : Store.state
}.

(** The JSON object the listing answers with. *)
Record listing : Type := Listing {
  data : list string;
  listed_on_demand_mode : bool;
  total_available : nat
}.

(** [f"__{k}__"] *)
Definition wildcard_name (k : string) : string := "__" +:+ k +:+ "__".

(** [d.keys()], in the order the map enumerates them: the listing is read
    here as a collection, the order of its entries is not modelled. *)
Definition dict_keys (d : gmap string (list string)) : list string :=
  map fst (map_to_list d).

(** DESIGN 3.2: [get_loaded_wildcards()]. *)
Definition get_loaded_wildcards (sv : server) : listing :=
  if on_demand_mode sv
  then Listing (map wildcard_name (dict_keys (Store.loaded_wildcards (store sv))))
               true
               (length (Store.available_wildcards (store sv)))
  else Listing (map wildcard_name (dict_keys (wildcard_dict sv)))
               false
               (length (dict_keys (wildcard_dict sv))).

End Server.

(** ** Output ports of the inversed switch node
       (custom_nodes/ComfyUI-WBLESS/web/nodes/inversed_switch.js) *)
Module Switch.

(** An output slot of a graph node: [links] is [null] or the array of the
    ids of its links. *)
Record output : Type := Output {
  name : string;
  label : option string;
  type : string;
  links : option (list nat)
}.

Definition _type : string := "*".
Definition MIN_OUTPUTS : nat := 1.

(** [output.links && output.links.length > 0] *)
Definition connected (o : output) : bool :=
  match links o with
  | Some (_ :: _) => true
  | _ => false
  end.

(** The template literal [`Output_${n}`]. *)
Definition output_name (n : nat) : string :=
  "Output_" +:+ NilEmpty.string_of_uint (Nat.to_uint n).

(** [node.addOutput(name, type)] of the graph library: a new slot without
    links at the end. *)
Definition addOutput (nm ty : string) (outputs : list output) : list output :=
  outputs ++ [Output nm None ty None].

(** [while (currentCount < desiredCount)]: the loop runs
    [gap = desiredCount - currentCount] times. *)
Fixpoint add_outputs (gap currentCount : nat) (outputs : list output)
  : nat * list output :=
  match gap with
  | O => (currentCount, outputs)
  | S gap' =>
      add_outputs gap' (S currentCount)
                  (addOutput (output_name (currentCount + 1)) _type outputs)
  end.

(** [while (currentCount > desiredCount)], at most
    [gap = currentCount - desiredCount] times: the last slot is removed
    when it has no link, and the loop is left otherwise. *)
Fixpoint remove_outputs (gap : nat) (outputs : list output) : list output :=
  match gap with
  | O => outputs
  | S gap' =>
      match last outputs with
      | Some lastOutput =>
          if negb (connected lastOutput)
          then remove_outputs gap' (List.removelast outputs)
          else outputs
      | None => outputs
      end
  end.

(** The body of the final [forEach], for the slot at index [i]. *)
Definition rename (i : nat) (o : output) : output :=
  let newName := output_name (i + 1) in
  if negb (String.eqb (name o) newName)
  then Output newName (Some newName) (type o) (links o)
  else o.

Fixpoint rename_from (i : nat) (outputs : list output) : list output :=
  match outputs with
  | [] => []
  | o :: rest => rename i o :: rename_from (S i) rest
  end.

(** [manageOutputs(node)], on the outputs of the node. *)
Definition manageOutputs (outputs : list output) : list output :=
  let connectedPortCount :=
    fold_left (fun acc o => acc + (if connected o then 1 else 0)) outputs 0 in
  let desiredCount := Nat.max MIN_OUTPUTS (connectedPortCount + 1) in
  let currentCount := length outputs in
  let '(currentCount, outputs) :=
    add_outputs (desiredCount - currentCount) currentCount outputs in
  let outputs := remove_outputs (currentCount - desiredCount) outputs in
  rename_from 0 outputs.

(** The [Path] widget: its value and the upper bound of its options. *)
Record widget : Type := Widget {
  value : Z;
  max : Z
}.

(** [updatePathWidget(node)] when the node has a [Path] widget. *)
Definition updatePathWidget (outputs : list output) (pathWidget : widget)
  : widget :=
  let outputCount := Z.of_nat (length outputs) in
  let max' := if (0 <? outputCount)%Z then outputCount else 1%Z in
  Widget (Z.min (value pathWidget) max') max'.

(** The last two statements of [updateTypes(node)]: every output takes the
    type found at the input and its name as label. *)
Definition updateTypes (newType : string) (outputs : list output)
  : list output :=
  map (fun o => Output (name o) (Some (name o)) newType (links o)) outputs.

(** [onConnectionsChange] for a change at an output: [manageOutputs],
    [updateTypes], [updatePathWidget]. *)
Definition onOutputChange (newType : string) (node : list output * widget)
  : list output * widget :=
  let outputs := updateTypes newType (manageOutputs (fst node)) in
  (outputs, updatePathWidget outputs (snd node)).

End Switch.

(** * Properties *)

Import Text.

(** ** Text primitives *)
Section TextFacts.

Lemma startswith_refl (s : string) : startswith s s = true.
Proof. induction s as [|a s IH]; simpl; [reflexivity|]. now rewrite Ascii.eqb_refl. Qed.

Lemma startswith_app (p s : string) : startswith p (p +:+ s) = true.
Proof. induction p as [|a p IH]; simpl; [reflexivity|]. now rewrite Ascii.eqb_refl. Qed.






Lemma concat_cons2 (sep w w' : string) (l : list string) :
  String.concat sep (w :: w' :: l) = w +:+ sep +:+ String.concat sep (w' :: l).
Proof. reflexivity. Qed.



Lemma app_assoc_string (a b c : string) : (a +:+ b) +:+ c = a +:+ (b +:+ c).
Proof.
  induction a as [|x a IH]; [reflexivity|].
  change (String x ((a +:+ b) +:+ c) = String x (a +:+ (b +:+ c))). now rewrite IH.
Qed.

End TextFacts.

(** ** Flat backing files *)
Section LoaderFacts.
Import Loader.

(** The filter of the project summary keeps exactly the lines that are
    neither blank nor comments, in file order. *)
Lemma filter_lines_spec (lines : list string) (x : string) :
  In x (filter_lines lines) <->
  In x lines /\ is_blank x = false /\ is_comment x = false.
Proof.
  unfold filter_lines. rewrite filter_In.
  rewrite andb_true_iff, !negb_true_iff. tauto.
Qed.

Lemma filter_lines_app (l1 l2 : list string) :
  filter_lines (l1 ++ l2) = filter_lines l1 ++ filter_lines l2.
Proof. unfold filter_lines. induction l1 as [|x l1 IH]; simpl; [reflexivity|].
       destruct (negb (is_blank x) && negb (is_comment x)); simpl; now rewrite IH. Qed.

(** The two snippets of the sources differ on blank lines: the shorter
    one of DESIGN 4.1 drops the comment lines of a file and keeps every line
    that is empty after trimming, where the filter of the project summary
    drops both; so for the file [rose], empty line, [# note], [tulip]. *)
Lemma load_txt_wildcard_keeps_blank_lines :
  (forall lines x,
      In x lines -> is_blank x = true ->
      In x (load_txt_wildcard lines) /\ ~ In x (filter_lines lines))
  /\ load_txt_wildcard ["rose"; ""; "# note"; "tulip"] = ["rose"; ""; "tulip"]
  /\ filter_lines ["rose"; ""; "# note"; "tulip"] = ["rose"; "tulip"].
Proof.
  split; [|split; reflexivity].
  intros lines x Hin Hb. split.
  - unfold load_txt_wildcard. apply filter_In. split; [exact Hin|].
    unfold is_comment. unfold is_blank in Hb.
    destruct (strip x); [reflexivity|discriminate].
  - rewrite filter_lines_spec. intros (_ & Hb' & _). congruence.
Qed.

End LoaderFacts.

(** ** Path validation *)
Section SecurityFacts.
Import Security.



End SecurityFacts.

(** ** Comment stripper *)
Section CommentFacts.
Import Comment.

Lemma has_char_app (c : ascii) (a b : string) :
  has_char c (a +:+ b) = has_char c a || has_char c b.
Proof. induction a as [|x a IH]; simpl; [reflexivity|]. now rewrite IH, orb_assoc. Qed.







Lemma comment_step_first (flag : bool) (line : string) :
  is_comment_line line = false -> comment_step ([], flag) line = ([line], false).
Proof. intros H. unfold comment_step. now rewrite H. Qed.


(** *** The scan, line by line *)











End CommentFacts.

(** ** Wildcard store *)
Section StoreFacts.
Import Store.
Variable find_wildcard_file : string -> option string.
Variable read_lines : string -> list string.

Local Abbreviation get := (get_wildcard_value find_wildcard_file read_lines).
Local Abbreviation direct_of := (direct find_wildcard_file read_lines).
Local Abbreviation combined_of := (combined find_wildcard_file read_lines).
Local Abbreviation denote_of := (denote find_wildcard_file read_lines).
Local Abbreviation coherent_with := (coherent find_wildcard_file read_lines).

Lemma matches_self (k : string) : matches_depth_agnostic k k = true.
Proof. unfold matches_depth_agnostic. now rewrite String.eqb_refl. Qed.

Lemma matched_keys_in (key k : string) (st : state) :
  In k (matched_keys_of key st) -> In k (Dict.keys (available_wildcards st)).
Proof. unfold matched_keys_of. rewrite filter_In. tauto. Qed.

Lemma matched_keys_self (k : string) (st : state) :
  In k (Dict.keys (available_wildcards st)) -> In k (matched_keys_of k st).
Proof. unfold matched_keys_of. rewrite filter_In. intros H. split; [exact H|apply matches_self]. Qed.

Lemma matched_keys_coherent (st0 st : state) (key : string) :
  coherent_with st0 st -> matched_keys_of key st = matched_keys_of key st0.
Proof. intros [Ha _]. unfold matched_keys_of. now rewrite Ha. Qed.

Lemma combined_stuck (ms : list string) (st : state) (m : string) :
  In m ms -> direct_of m st = None -> combined_of ms st = None.
Proof.
  induction ms as [|k ms IH]; [contradiction|].
  intros [->|Hin] Hm; simpl.
  - now rewrite Hm.
  - rewrite (IH Hin Hm). now destruct (direct_of k st).
Qed.

Lemma combined_None (ms : list string) (st : state) :
  combined_of ms st = None -> exists m, In m ms /\ direct_of m st = None.
Proof.
  induction ms as [|k ms IH]; [discriminate|]. simpl.
  destruct (direct_of k st) eqn:Hk.
  - destruct (combined_of ms st) eqn:Hc; [discriminate|].
    intros _. destruct (IH eq_refl) as (m & Hin & Hm). exists m. auto.
  - intros _. exists k. auto.
Qed.

Lemma denote_direct (k : string) (st : state) (v : list string) :
  direct_of k st = Some v -> denote_of k st = Some (Some v).
Proof. intros H. unfold denote. now rewrite H. Qed.

Lemma denote_stuck (k : string) (st : state) :
  In k (Dict.keys (available_wildcards st)) -> direct_of k st = None ->
  denote_of k st = None.
Proof.
  intros Hin Hd. unfold denote. rewrite Hd.
  pose proof (matched_keys_self k st Hin) as Hself.
  destruct (matched_keys_of k st) as [|mk rest] eqn:E; [contradiction|].
  now rewrite (combined_stuck (mk :: rest) st k Hself Hd).
Qed.

Lemma direct_loaded (k : string) (st : state) (v : list string) :
  loaded_wildcards st !! k = Some v -> direct_of k st = Some v.
Proof. intros H. unfold direct. now rewrite H. Qed.

Lemma coherent_refl (st : state) : coherent_with st st.
Proof.
  split; [reflexivity|]. split; [|tauto].
  intros k v H. apply denote_direct, direct_loaded, H.
Qed.

Lemma coherent_cache (st0 st : state) (k : string) (v : list string) :
  coherent_with st0 st -> denote_of k st0 = Some (Some v) ->
  coherent_with st0 (cache k v st).
Proof.
  intros (Ha & Hl & Hn) Hk. split; [exact Ha|]. split; simpl.
  - intros k' v'. rewrite lookup_insert. case_decide as E.
    + subst k'. now intros [= <-].
    + apply Hl.
  - intros k'. rewrite lookup_insert. case_decide; [discriminate|apply Hn].
Qed.

Lemma get_S (d : nat) (k : string) (st : state) :
  get (S d) k st =
  match loaded_wildcards st !! k with
  | Some v => Ok (Some v, st)
  | None =>
      match find_wildcard_file k with
      | Some file_path =>
          Ok (Some (Loader.filter_lines (read_lines file_path)),
              cache k (Loader.filter_lines (read_lines file_path)) st)
      | None =>
          match matched_keys_of k st with
          | [] => Ok (None, st)
          | mk :: rest =>
              match extend_all (get d) (mk :: rest) [] st with
              | Raise e => Raise e
              | Ok (all_options, st') =>
                  Ok (Some all_options, cache k all_options st')
              end
          end
      end
  end.
Proof. reflexivity. Qed.

(** A key with an option list of its own is answered by phase 1 or 2. *)
Lemma get_direct (st0 st : state) (k : string) (v : list string) (d : nat) :
  coherent_with st0 st -> direct_of k st0 = Some v ->
  exists st', get (S d) k st = Ok (Some v, st') /\ coherent_with st0 st'.
Proof.
  intros Hc Hd. pose proof Hc as (Ha & Hl & Hn). simpl.
  destruct (loaded_wildcards st !! k) as [v'|] eqn:E.
  - apply Hl in E. rewrite (denote_direct _ _ _ Hd) in E. injection E as ->.
    exists st. auto.
  - pose proof (Hn _ E) as E0. unfold direct in Hd. rewrite E0 in Hd.
    destruct (find_wildcard_file k) as [p|] eqn:Hf; [|discriminate].
    injection Hd as <-. eexists. split; [reflexivity|].
    apply coherent_cache; [exact Hc|]. apply denote_direct.
    unfold direct. now rewrite E0, Hf.
Qed.

(** The loop over the matched keys stops with [RecursionError] as soon as a
    key without option list of its own is met. *)
Lemma extend_all_stuck (st0 : state)
      (getd : string -> state -> result (option (list string) * state)) :
  (forall st k, coherent_with st0 st ->
                In k (Dict.keys (available_wildcards st0)) ->
                direct_of k st0 = None -> getd k st = Raise RecursionError) ->
  (forall st k v, coherent_with st0 st -> direct_of k st0 = Some v ->
                  getd k st = Raise RecursionError
                  \/ exists st', getd k st = Ok (Some v, st') /\ coherent_with st0 st') ->
  forall ms acc st,
    coherent_with st0 st ->
    (forall m, In m ms -> In m (Dict.keys (available_wildcards st0))) ->
    (exists m, In m ms /\ direct_of m st0 = None) ->
    extend_all getd ms acc st = Raise RecursionError.
Proof.
  intros Hstuck Hok. induction ms as [|m ms IH]; intros acc st Hc Hin (x & Hx & Hxd).
  - contradiction.
  - simpl. destruct (direct_of m st0) as [v|] eqn:Hm.
    + destruct (Hok st m v Hc Hm) as [->|(st' & -> & Hc')]; [reflexivity|].
      apply IH; [exact Hc'|intros; apply Hin; now right|].
      destruct Hx as [->|Hx]; [congruence|]. exists x. auto.
    + rewrite (Hstuck st m Hc (Hin m (or_introl eq_refl)) Hm). reflexivity.
Qed.

(** A key of the index without option list of its own matches itself: the
    fallback calls itself for ever. *)
Lemma get_stuck (st0 : state) (d : nat) :
  forall st k, coherent_with st0 st ->
               In k (Dict.keys (available_wildcards st0)) ->
               direct_of k st0 = None -> get d k st = Raise RecursionError.
Proof.
  induction d as [|d IH]; intros st k Hc Hin Hd; [reflexivity|].
  pose proof Hc as (Ha & Hl & Hn). cbn [get_wildcard_value].
  destruct (loaded_wildcards st !! k) as [v'|] eqn:E.
  { apply Hl in E. rewrite (denote_stuck _ _ Hin Hd) in E. discriminate. }
  assert (Hf : find_wildcard_file k = None).
  { unfold direct in Hd. rewrite (Hn _ E) in Hd.
    destruct (find_wildcard_file k); [discriminate|reflexivity]. }
  rewrite Hf, (matched_keys_coherent _ _ k Hc).
  pose proof (matched_keys_self k st0 Hin) as Hself.
  destruct (matched_keys_of k st0) as [|mk rest] eqn:Em; [contradiction|].
  rewrite (extend_all_stuck st0 (get d)); [reflexivity|exact IH| |exact Hc| |].
  - intros st1 k1 v1 Hc1 Hd1. destruct d as [|d']; [now left|].
    right. apply get_direct; assumption.
  - intros m Hm. apply (matched_keys_in k). now rewrite Em.
  - exists k. auto.
Qed.

(** When every matched key has an option list of its own, the loop
    collects them in order. *)
Lemma extend_all_ok (st0 : state) (d : nat) :
  forall ms acc st w,
    coherent_with st0 st -> combined_of ms st0 = Some w ->
    exists st', extend_all (get (S d)) ms acc st = Ok (acc ++ w, st')
                /\ coherent_with st0 st'.
Proof.
  induction ms as [|m ms IH]; intros acc st w Hc Hw; simpl in Hw.
  - injection Hw as <-. exists st. simpl. now rewrite app_nil_r.
  - destruct (direct_of m st0) as [v|] eqn:Hm; [|discriminate].
    destruct (combined_of ms st0) as [w'|] eqn:Hw'; [|discriminate].
    injection Hw as <-.
    destruct (get_direct st0 st m v d Hc Hm) as (st1 & E1 & Hc1).
    destruct (IH (acc ++ v) st1 w' Hc1 eq_refl) as (st2 & E2 & Hc2).
    exists st2. split; [|exact Hc2].
    cbn [extend_all]. rewrite E1, E2. now rewrite <- app_assoc.
Qed.

(** [get_wildcard_value] computes [denote] of the state it started from,
    whatever has been loaded since, and raises nothing but
    [RecursionError]. *)
Lemma get_denote (st0 st : state) (k : string) (d : nat) :
  coherent_with st0 st ->
  match denote_of k st0 with
  | Some v => exists st', get (S (S d)) k st = Ok (v, st') /\ coherent_with st0 st'
  | None => get (S (S d)) k st = Raise RecursionError
  end.
Proof.
  intros Hc. pose proof Hc as (Ha & Hl & Hn).
  destruct (direct_of k st0) as [v|] eqn:Hd.
  { rewrite (denote_direct _ _ _ Hd). apply get_direct; assumption. }
  rewrite get_S.
  destruct (loaded_wildcards st !! k) as [v'|] eqn:E.
  { rewrite (Hl _ _ E). exists st. auto. }
  assert (Hf : find_wildcard_file k = None).
  { unfold direct in Hd. rewrite (Hn _ E) in Hd.
    destruct (find_wildcard_file k); [discriminate|reflexivity]. }
  rewrite Hf, (matched_keys_coherent _ _ k Hc).
  unfold denote. rewrite Hd.
  destruct (matched_keys_of k st0) as [|mk rest] eqn:Em.
  { exists st. auto. }
  destruct (combined_of (mk :: rest) st0) as [w|] eqn:Hw; cbn [option_map].
  - destruct (extend_all_ok st0 d (mk :: rest) [] st w Hc Hw) as (st1 & E1 & Hc1).
    rewrite E1. eexists. split; [reflexivity|].
    apply coherent_cache; [exact Hc1|].
    unfold denote. now rewrite Hd, Em, Hw.
  - destruct (combined_None _ _ Hw) as (m & Hin & Hm).
    rewrite (extend_all_stuck st0 (get (S d))); [reflexivity| | |exact Hc| |].
    + apply get_stuck.
    + intros st1 k1 v1 Hc1 Hd1. right. apply get_direct; assumption.
    + intros m' Hm'. apply (matched_keys_in k). now rewrite Em.
    + exists m. auto.
Qed.

(** *** Calls that are settled by the state they started from *)

Local Abbreviation settled_on := (settled find_wildcard_file read_lines).
Local Abbreviation loadable_st := (loadable find_wildcard_file read_lines).

Lemma settled_ret {X : Type} (st0 : state) (x : X) : settled_on st0 (ret x).
Proof. left. exists x. intros st Hc. exists st. auto. Qed.

Lemma settled_bind {X Y : Type} (st0 : state) (m : M X) (k : X -> M Y) :
  settled_on st0 m -> (forall x, settled_on st0 (k x)) -> settled_on st0 (bind m k).
Proof.
  intros [(x & Hm)|(Hl & Hm)] Hk.
  - destruct (Hk x) as [(y & Hy)|(Hl & Hy)].
    + left. exists y. intros st Hc. unfold bind.
      destruct (Hm st Hc) as (st1 & -> & Hc1). apply Hy, Hc1.
    + right. split; [exact Hl|]. intros st Hc. unfold bind.
      destruct (Hm st Hc) as (st1 & -> & Hc1). apply Hy, Hc1.
  - right. split; [exact Hl|]. intros st Hc. unfold bind. now rewrite (Hm st Hc).
Qed.

Lemma combined_not_loadable (st0 : state) (ms : list string) :
  (forall m, In m ms -> In m (Dict.keys (available_wildcards st0))) ->
  combined_of ms st0 = None -> ~ loadable_st st0.
Proof.
  intros Hin Hw Hl. destruct (combined_None _ _ Hw) as (m & Hm & Hd).
  exact (Hl m (Hin m Hm) Hd).
Qed.

Lemma get_settled (st0 : state) (k : string) (d : nat) :
  settled_on st0 (get (S (S d)) k).
Proof.
  destruct (denote_of k st0) as [v|] eqn:Hv.
  - left. exists v. intros st Hc.
    pose proof (get_denote st0 st k d Hc) as H. now rewrite Hv in H.
  - right. split.
    + unfold denote in Hv. destruct (direct_of k st0); [discriminate|].
      destruct (matched_keys_of k st0) as [|mk rest] eqn:Em; [discriminate|].
      destruct (combined_of (mk :: rest) st0) eqn:Hw; [discriminate|].
      apply (combined_not_loadable st0 (mk :: rest)); [|exact Hw].
      intros m Hm. apply (matched_keys_in k). now rewrite Em.
    + intros st Hc.
      pose proof (get_denote st0 st k d Hc) as H. now rewrite Hv in H.
Qed.

Lemma extend_all_settled (st0 : state) (base : string) (d : nat) :
  settled_on st0 (fun st => extend_all (get (S (S d))) (matched_keys_of base st) [] st).
Proof.
  assert (Hin : forall m, In m (matched_keys_of base st0) ->
                          In m (Dict.keys (available_wildcards st0)))
    by (intros m; apply matched_keys_in).
  destruct (combined_of (matched_keys_of base st0) st0) as [w|] eqn:Hw.
  - left. exists w. intros st Hc. rewrite (matched_keys_coherent _ _ base Hc).
    apply (extend_all_ok st0 (S d) _ [] st w Hc Hw).
  - right. split; [apply (combined_not_loadable st0 _ Hin Hw)|].
    intros st Hc. rewrite (matched_keys_coherent _ _ base Hc).
    destruct (combined_None _ _ Hw) as (m & Hm & Hd).
    apply (extend_all_stuck st0); try assumption.
    + apply get_stuck.
    + intros st1 k1 v1 Hc1 Hd1. right. apply get_direct; assumption.
    + exists m. auto.
Qed.

(** *** The availability index as a dictionary *)

Lemma dict_get_set {V : Type} (k k' : string) (v : V) (d : list (string * V)) :
  Dict.get k (Dict.set k' v d) = if String.eqb k' k then Some v else Dict.get k d.
Proof.
  induction d as [|[k2 v2] d IH]; simpl; [reflexivity|].
  destruct (String.eqb_spec k2 k') as [->|Hne]; simpl.
  - destruct (String.eqb k' k); reflexivity.
  - rewrite IH. destruct (String.eqb_spec k' k) as [->|Hne'].
    + apply String.eqb_neq in Hne. now rewrite Hne.
    + reflexivity.
Qed.

Lemma dict_keys_get {V : Type} (k : string) (d : list (string * V)) :
  In k (Dict.keys d) -> exists v, Dict.get k d = Some v.
Proof.
  induction d as [|[k2 v2] d IH]; simpl; [contradiction|].
  intros [->|Hin].
  - rewrite String.eqb_refl. eauto.
  - destruct (String.eqb k2 k); eauto.
Qed.

End StoreFacts.

(** ** Wildcard pass and orchestrator *)
Section EngineFacts.
Import Store Engine.
Context {G : Type}.
Variable seed_rng : Z -> G.
Variable random : G -> Q * G.
Variable find_wildcard_file : string -> option string.
Variable read_lines : string -> list string.

Local Abbreviation coherent_with := (coherent find_wildcard_file read_lines).
Local Abbreviation loadable_st := (loadable find_wildcard_file read_lines).
Local Abbreviation settled_on := (settled find_wildcard_file read_lines).
Local Abbreviation resolve_of := (resolve find_wildcard_file read_lines).
Local Abbreviation one_pass := (process_one_pass random find_wildcard_file read_lines).
Local Abbreviation expand_of := (expand random find_wildcard_file read_lines).
Local Abbreviation process_of := (process seed_rng random find_wildcard_file read_lines).

Lemma resolve_settled (st0 : state) (k : string) : settled_on st0 (resolve_of k).
Proof. unfold resolve. change recursion_limit with (S (S 998)). apply get_settled. Qed.

Lemma pattern_options_settled (st0 : state) (keyword : string) :
  settled_on st0 (pattern_options find_wildcard_file read_lines keyword).
Proof.
  unfold pattern_options. destruct (startswith "*/" keyword); [|apply settled_ret].
  unfold resolve. change recursion_limit with (S (S 998)).
  apply (extend_all_settled find_wildcard_file read_lines st0).
Qed.

Lemma replace_ref_settled (st0 : state) (name : string) (g : G) :
  settled_on st0 (replace_ref random find_wildcard_file read_lines name g).
Proof.
  unfold replace_ref. apply settled_bind; [apply resolve_settled|].
  assert (Hrest : settled_on st0
            (if contains "*" (wildcard_normalize name)
             then bind (pattern_options find_wildcard_file read_lines (wildcard_normalize name))
                       (fun matched =>
                          match matched with
                          | [] => ret (ref_text name, g)
                          | o :: os => ret (Select.choice random (o :: os) g)
                          end)
             else ret (ref_text name, g))).
  { destruct (contains "*" (wildcard_normalize name)); [|apply settled_ret].
    apply settled_bind; [apply pattern_options_settled|].
    intros [|o os]; apply settled_ret. }
  intros [[|o os]|]; [exact Hrest|apply settled_ret|exact Hrest].
Qed.

Lemma replace_tokens_settled (st0 : state) (tks : list token) :
  forall g, settled_on st0 (replace_tokens random find_wildcard_file read_lines tks g).
Proof.
  induction tks as [|tk tks IH]; intros g; cbn [replace_tokens]; [apply settled_ret|].
  apply settled_bind.
  - destruct tk; cbn [replace_token]; [apply settled_ret|apply replace_ref_settled|apply settled_ret].
  - intros r1. apply settled_bind; [apply IH|]. intros r2. apply settled_ret.
Qed.

Lemma process_one_pass_settled (st0 : state) (text : string) (g : G) :
  settled_on st0 (one_pass text g).
Proof. unfold process_one_pass, replace_wildcard. apply replace_tokens_settled. Qed.

Lemma expand_settled (st0 : state) (n : nat) :
  forall text g passes, settled_on st0 (expand_of n text g passes).
Proof.
  induction n as [|n IH]; intros text g passes; cbn [expand]; [apply settled_ret|].
  apply settled_bind; [apply process_one_pass_settled|].
  intros r. destruct (String.eqb (fst r) text); [apply settled_ret|apply IH].
Qed.

Lemma process_settled (st0 : state) (text : string) (seed : Z) :
  settled_on st0 (process_of text seed).
Proof. apply expand_settled. Qed.

(** With every key of the index loadable, a call returns. *)
Lemma process_returns (text : string) (seed : Z) (st : state) :
  loadable_st st -> exists o st', process_of text seed st = Ok (o, st').
Proof.
  intros Hl. destruct (process_settled st text seed) as [(o & Ho)|(Hn & _)].
  - destruct (Ho st (coherent_refl _ _ st)) as (st' & E & _). eauto.
  - contradiction.
Qed.

(** C2: a call of [process] that returns leaves the store in a state from
    which the same call, with the same text and seed, returns the same
    text; more generally the call returns the same text from every store
    that differs from the first one only by entries loaded on demand. *)
Theorem process_deterministic (text : string) (seed : Z) (st : state)
        (o : outcome) (st1 : state) :
  process_of text seed st = Ok (o, st1) ->
  (exists st2, process_of text seed st1 = Ok (o, st2))
  /\ (forall sb, coherent_with st sb ->
                 exists sb', process_of text seed sb = Ok (o, sb')
                             /\ coherent_with st sb').
Proof.
  intros E. destruct (process_settled st text seed) as [(x & Hx)|(_ & Hr)].
  - destruct (Hx st (coherent_refl _ _ st)) as (st' & E' & Hc).
    rewrite E in E'. injection E' as <- <-.
    split; [|exact Hx].
    destruct (Hx st1 Hc) as (st2 & E2 & _). eauto.
  - rewrite (Hr st (coherent_refl _ _ st)) in E. discriminate.
Qed.

(** *** The pass ceiling *)

Lemma expand_passes (n : nat) :
  forall text g p st o st',
    expand_of n text g p st = Ok (o, st') ->
    p <= out_passes o <= p + n
    /\ (1 <= n -> p < out_passes o)
    /\ (out_passes o < p + n ->
        exists g1 st1, one_pass (out_text o) g1 st1 = Ok ((out_text o, out_rng o), st')).
Proof.
  induction n as [|n IH]; intros text g p st o st'; cbn [expand].
  - unfold ret. intros [= <- <-]. simpl. repeat split; lia.
  - unfold bind. destruct (one_pass text g st) as [[[t g'] s']|e] eqn:E; [|discriminate].
    cbn [fst snd]. destruct (String.eqb_spec t text) as [->|Hne].
    + unfold ret. intros [= <- <-]. simpl. repeat split; try lia.
      intros _. exists g, st. exact E.
    + intros H. apply IH in H as (H1 & H2 & H3). repeat split; try lia.
      intros Hlt. apply H3. lia.
Qed.

Lemma expand_stops (n : nat) (text : string) (g g' : G) (p : nat) (st st' : state) :
  one_pass text g st = Ok ((text, g'), st') ->
  expand_of (S n) text g p st = Ok (Outcome text g' (S p), st').
Proof. intros E. cbn [expand]. unfold bind. rewrite E. cbn [fst snd]. now rewrite String.eqb_refl. Qed.

Lemma app_empty_r (s : string) : s +:+ "" = s.
Proof.
  induction s as [|a s IH]; [reflexivity|].
  change (String a (s +:+ "") = String a s). now rewrite IH.
Qed.

Lemma choice_single (x : string) (g : G) :
  Select.choice random [x] g = (x, snd (random g)).
Proof. unfold Select.choice, Select.below. simpl length. now rewrite Nat.min_0_r. Qed.

(** One pass over a text that is a single reference to a wildcard with a
    single option. *)
Lemma single_ref_pass (name target : string) (st0 st : state) (g : G) :
  coherent_with st0 st ->
  denote find_wildcard_file read_lines (wildcard_normalize name) st0 = Some (Some [target]) ->
  Options.replace_options random (ref_text name) g = (ref_text name, g) ->
  tokenize (ref_text name) 0 = [Ref name] ->
  exists st', one_pass (ref_text name) g st = Ok ((target, snd (random g)), st')
              /\ coherent_with st0 st'.
Proof.
  intros Hc Hd Ho Ht.
  pose proof (get_denote find_wildcard_file read_lines st0 st
                (wildcard_normalize name) 998 Hc) as H.
  rewrite Hd in H. destruct H as (st' & E & Hc').
  exists st'. split; [|exact Hc'].
  unfold process_one_pass, replace_wildcard, expand_quantifiers. rewrite Ht.
  change (join "" (map token_text [Ref name])) with (ref_text name).
  rewrite Ho. cbn [fst snd]. rewrite Ht.
  cbn [replace_tokens replace_token]. unfold replace_ref, bind, resolve.
  change recursion_limit with (S (S 998)). rewrite E.
  unfold ret. rewrite choice_single. cbn [fst snd]. now rewrite app_empty_r.
Qed.

(** Passes that turn [a] into [b] and [b] into [a] never leave the text
    unchanged: every iteration of the loop is used. *)
Lemma two_cycle_expand (st0 : state) (n : nat) :
  forall a b,
    (forall st g, coherent_with st0 st ->
                  exists st', one_pass a g st = Ok ((b, snd (random g)), st')
                              /\ coherent_with st0 st') ->
    (forall st g, coherent_with st0 st ->
                  exists st', one_pass b g st = Ok ((a, snd (random g)), st')
                              /\ coherent_with st0 st') ->
    a <> b ->
    forall st g p,
      coherent_with st0 st ->
      exists o st', expand_of n a g p st = Ok (o, st')
                    /\ out_passes o = p + n
                    /\ out_text o = Examples.swing n a b.
Proof.
  induction n as [|n IH]; intros a b Hab Hba Hne st g p Hc; cbn [expand].
  - eexists _, st. split; [reflexivity|]. split; [simpl; lia|reflexivity].
  - destruct (Hab st g Hc) as (st1 & E & Hc1). unfold bind. rewrite E. cbn [fst snd].
    destruct (String.eqb_spec b a) as [->|_]; [contradiction|].
    destruct (IH b a Hba Hab (fun H => Hne (eq_sym H)) st1 (snd (random g)) (S p) Hc1)
      as (o & st' & E' & Hp & Ht).
    exists o, st'. split; [exact E'|]. split; [lia|exact Ht].
Qed.

End EngineFacts.

Section CeilingFacts.
Import Store Engine.
Context {G : Type}.
Variable seed_rng : Z -> G.
Variable random : G -> Q * G.

Lemma passes_S (find : string -> option string) (read : string -> list string)
      (k : nat) (text : string) (g : G) (st : state) :
  passes random find read (S k) text g st
  = match process_one_pass random find read text g st with
    | Ok (r, st1) => passes random find read k (fst r) (snd r) st1
    | Raise e => Raise e
    end.
Proof. reflexivity. Qed.

(** The loop of [process] against the passes themselves: it makes the
    passes one after the other, leaves at the first pass that raises or
    leaves the text unchanged, and at the latest after [S m] passes. *)
Lemma expand_trace (find : string -> option string) (read : string -> list string)
      (m : nat) :
  forall text g p st,
    exists n,
      1 <= n <= S m
      /\ (forall k, S k < n ->
            exists a ga sa b gb sb,
              passes random find read k text g st = Ok ((a, ga), sa)
              /\ passes random find read (S k) text g st = Ok ((b, gb), sb)
              /\ a <> b)
      /\ match passes random find read n text g st with
         | Raise e => expand random find read (S m) text g p st = Raise e
         | Ok ((t, g'), st') =>
             expand random find read (S m) text g p st
             = Ok (Outcome t g' (p + n), st')
             /\ (n < S m ->
                 exists ga sa,
                   passes random find read (n - 1) text g st = Ok ((t, ga), sa))
         end.
Proof.
  induction m as [|m IH]; intros text g p st.
  - exists 1. split; [lia|]. split; [intros k Hk; lia|].
    rewrite passes_S. cbn [expand]. unfold bind.
    destruct (process_one_pass random find read text g st) as [[[t1 g1] s1]|e];
      [|reflexivity].
    cbn [passes fst snd]. unfold ret. rewrite Nat.add_1_r. split; [|lia].
    destruct (String.eqb_spec t1 text) as [->|_]; reflexivity.
  - destruct (process_one_pass random find read text g st) as [[[t1 g1] s1]|e] eqn:E.
    + destruct (String.eqb_spec t1 text) as [->|Hne].
      * exists 1. split; [lia|]. split; [intros k Hk; lia|].
        rewrite passes_S, E. cbn [passes fst snd]. unfold ret.
        split.
        -- change (expand random find read (S (S m)) text g p st)
             with (bind (process_one_pass random find read text g)
                        (fun r => if String.eqb (fst r) text
                                  then ret (Outcome text (snd r) (S p))
                                  else expand random find read (S m) (fst r) (snd r) (S p))
                        st).
           unfold bind. rewrite E. cbn [fst snd]. rewrite String.eqb_refl.
           unfold ret. now rewrite Nat.add_1_r.
        -- intros _. exists g, st. reflexivity.
      * destruct (IH t1 g1 (S p) s1) as (n & Hn & Hchg & Hend).
        exists (S n). split; [lia|]. split.
        -- intros [|k] Hk.
           ++ exists text, g, st, t1, g1, s1.
              split; [reflexivity|]. split; [now rewrite passes_S, E|].
              intros H. now apply Hne.
           ++ destruct (Hchg k ltac:(lia)) as (a & ga & sa & b & gb & sb & H1 & H2 & H3).
              exists a, ga, sa, b, gb, sb.
              rewrite !passes_S, E. cbn [fst snd]. auto.
        -- rewrite passes_S, E. cbn [fst snd].
           assert (Hx : expand random find read (S (S m)) text g p st
                        = expand random find read (S m) t1 g1 (S p) s1).
           { change (expand random find read (S (S m)) text g p st)
               with (bind (process_one_pass random find read text g)
                          (fun r => if String.eqb (fst r) text
                                    then ret (Outcome text (snd r) (S p))
                                    else expand random find read (S m) (fst r) (snd r) (S p))
                          st).
             unfold bind. rewrite E. cbn [fst snd].
             destruct (String.eqb_spec t1 text); [contradiction|reflexivity]. }
           rewrite Hx.
           destruct (passes random find read n t1 g1 s1) as [[[t g'] st']|e];
             [|exact Hend].
           destruct Hend as [Hret Hlast]. split.
           ++ rewrite Hret. do 3 f_equal. lia.
           ++ intros Hlt. destruct (Hlast ltac:(lia)) as (ga & sa & Hp).
              exists ga, sa. replace (S n - 1) with (S (n - 1)) by lia.
              now rewrite passes_S, E.
    + exists 1. split; [lia|]. split; [intros k Hk; lia|].
      rewrite passes_S, E. cbn [expand]. unfold bind. now rewrite E.
Qed.

(** C1: a call of [process] makes the passes one after the other over the
    text the comment stripper returns, at least one and at most 100: every
    pass before the last one returned and changed the text; when the last
    pass raises, the call raises the same; otherwise the call returns the
    text after the last pass, and it made fewer than 100 passes only when
    the last one left the text unchanged.  When 100 passes in a row each
    change the text, the call returns the text after the hundredth.  With
    wildcard [A] whose only option is [__B__] and [B] whose only option is
    [__A__], [process("__A__", seed)] makes exactly 100 passes and returns
    the unexpanded [__A__], for every generator and seed. *)
Theorem process_pass_ceiling :
  (forall find read text seed st,
      let run k := passes random find read k
                          (Comment.process_comment_out text) (seed_rng seed) st in
      exists n,
        1 <= n <= 100
        /\ (forall k, S k < n ->
              exists a ga sa b gb sb,
                run k = Ok ((a, ga), sa) /\ run (S k) = Ok ((b, gb), sb) /\ a <> b)
        /\ match run n with
           | Raise e => process seed_rng random find read text seed st = Raise e
           | Ok ((t, g'), st') =>
               process seed_rng random find read text seed st
               = Ok (Outcome t g' n, st')
               /\ (n < 100 -> exists ga sa, run (n - 1) = Ok ((t, ga), sa))
           end)
  /\ (forall find read text seed st,
         let run k := passes random find read k
                             (Comment.process_comment_out text) (seed_rng seed) st in
         (forall k, k < 100 ->
            exists a ga sa b gb sb,
              run k = Ok ((a, ga), sa) /\ run (S k) = Ok ((b, gb), sb) /\ a <> b) ->
         exists t g' st',
           run 100 = Ok ((t, g'), st')
           /\ process seed_rng random find read text seed st
              = Ok (Outcome t g' 100, st'))
  /\ (forall seed,
         exists o st',
           process seed_rng random Examples.cyclic_find Examples.cyclic_read
                   "__A__" seed Examples.cyclic_state = Ok (o, st')
           /\ out_text o = "__A__" /\ out_passes o = 100).
Proof.
  assert (Htrace : forall find read text seed st,
      let run k := passes random find read k
                          (Comment.process_comment_out text) (seed_rng seed) st in
      exists n,
        1 <= n <= 100
        /\ (forall k, S k < n ->
              exists a ga sa b gb sb,
                run k = Ok ((a, ga), sa) /\ run (S k) = Ok ((b, gb), sb) /\ a <> b)
        /\ match run n with
           | Raise e => process seed_rng random find read text seed st = Raise e
           | Ok ((t, g'), st') =>
               process seed_rng random find read text seed st
               = Ok (Outcome t g' n, st')
               /\ (n < 100 -> exists ga sa, run (n - 1) = Ok ((t, ga), sa))
           end).
  { intros find read text seed st run. unfold process, max_iterations.
    destruct (expand_trace find read 99 (Comment.process_comment_out text)
                           (seed_rng seed) 0 st) as (n & Hn & Hchg & Hend).
    exists n. split; [exact Hn|]. split; [exact Hchg|]. exact Hend. }
  split; [exact Htrace|]. split.
  - intros find read text seed st run Hall.
    destruct (Htrace find read text seed st) as (n & Hn & _ & Hend).
    subst run. cbv beta in *.
    destruct (Nat.eq_dec n 100) as [->|Hne].
    + destruct (Hall 99 ltac:(lia)) as (a & ga & sa & b & gb & sb & _ & H2 & _).
      rewrite H2 in Hend. destruct Hend as [Hret _].
      exists b, gb, sb. auto.
    + exfalso.
      destruct (Hall (n - 1) ltac:(lia)) as (a & ga & sa & b & gb & sb & H1 & H2 & Hab).
      replace (S (n - 1)) with n in H2 by lia.
      rewrite H2 in Hend. destruct Hend as [_ Hlast].
      destruct (Hlast ltac:(lia)) as (ga' & sa' & H1').
      rewrite H1 in H1'. injection H1' as -> _ _. now apply Hab.
  - intros seed. unfold process, max_iterations.
    change (Comment.process_comment_out "__A__") with "__A__".
    destruct (two_cycle_expand random Examples.cyclic_find Examples.cyclic_read
                Examples.cyclic_state 100 "__A__" "__B__") with
      (st := Examples.cyclic_state) (g := seed_rng seed) (p := 0)
      as (o & st' & E & Hp & Ht).
    + intros st g Hc.
      apply (single_ref_pass random Examples.cyclic_find Examples.cyclic_read
               "A" "__B__" Examples.cyclic_state st g Hc); reflexivity.
    + intros st g Hc.
      apply (single_ref_pass random Examples.cyclic_find Examples.cyclic_read
               "B" "__A__" Examples.cyclic_state st g Hc); reflexivity.
    + discriminate.
    + apply coherent_refl.
    + exists o, st'. split; [exact E|]. split; [exact Ht|exact Hp].
Qed.

End CeilingFacts.

(** ** Depth-agnostic fallback *)
Section FallbackFacts.
Import Store Engine.
Context {G : Type}.
Variable random : G -> Q * G.
Variable find_wildcard_file : string -> option string.
Variable read_lines : string -> list string.

Local Abbreviation get := (get_wildcard_value find_wildcard_file read_lines).
Local Abbreviation direct_of := (direct find_wildcard_file read_lines).




End FallbackFacts.



(** ** Malformed grammar *)
Section MalformedFacts.
Import Store Engine Options.
Context {G : Type}.
Variable seed_rng : Z -> G.
Variable random : G -> Q * G.

Lemma rev_acc_app (s acc t : string) : rev_acc s acc +:+ t = rev_acc s (acc +:+ t).
Proof.
  revert acc. induction s as [|a s IH]; intros acc; simpl; [reflexivity|].
  now rewrite IH.
Qed.

Lemma rev_push (c : ascii) (buf s : string) :
  rev (String c buf) +:+ s = rev buf +:+ String c s.
Proof. unfold rev. simpl. now rewrite !rev_acc_app. Qed.

(** Without a closing brace ahead nothing is expanded: the text read so
    far is copied as it is. *)
Lemma scan_options_no_close (s : string) :
  has_char close_brace s = false ->
  forall depth buf g,
    scan_options random s depth buf g
    = (match depth with
       | O => s
       | S _ => String open_brace (rev buf +:+ s)
       end, g).
Proof.
  induction s as [|c s IH]; intros Hs depth buf g.
  - destruct depth; simpl; [reflexivity|]. now rewrite app_empty_r.
  - simpl in Hs. apply orb_false_iff in Hs as [Hc Hs].
    destruct depth as [|d]; cbn [scan_options].
    + destruct (Ascii.eqb_spec c open_brace) as [->|_].
      * rewrite (IH Hs). reflexivity.
      * rewrite (IH Hs). reflexivity.
    + rewrite Hc. destruct (Ascii.eqb c open_brace);
        rewrite (IH Hs); now rewrite rev_push.
Qed.

(** A block that is never closed is copied with all that follows it. *)
Lemma scan_options_unclosed (s : string) :
  forall d buf g,
    unclosed s (S d) = true ->
    scan_options random s (S d) buf g = (String open_brace (rev buf +:+ s), g).
Proof.
  induction s as [|c s IH]; intros d buf g Hs.
  - simpl. now rewrite app_empty_r.
  - cbn [scan_options]. cbn [unclosed] in Hs.
    destruct (Ascii.eqb c open_brace).
    + rewrite (IH _ _ _ Hs). now rewrite rev_push.
    + destruct (Ascii.eqb c close_brace).
      * destruct d as [|d]; [discriminate|].
        rewrite (IH _ _ _ Hs). now rewrite rev_push.
      * rewrite (IH _ _ _ Hs). now rewrite rev_push.
Qed.

Lemma scan_options_outside (s buf : string) (g : G) :
  scan_options random s 0 buf g = scan_options random s 0 EmptyString g.
Proof. destruct s; reflexivity. Qed.

(** After a text that closes all its blocks the scan starts afresh, with
    the generator the text left. *)
Lemma scan_options_app (pre t : string) :
  forall depth buf g,
    final_depth pre depth = 0 ->
    scan_options random (pre +:+ t) depth buf g
    = (fst (scan_options random pre depth buf g)
       +:+ fst (scan_options random t 0 EmptyString
                             (snd (scan_options random pre depth buf g))),
       snd (scan_options random t 0 EmptyString
                         (snd (scan_options random pre depth buf g)))).
Proof.
  induction pre as [|c pre IH]; intros depth buf g Hd.
  - simpl in Hd. subst depth. change (EmptyString +:+ t) with t.
    rewrite scan_options_outside. cbn [scan_options fst snd].
    change (EmptyString +:+ ?x) with x. now destruct (scan_options random t 0 EmptyString g).
  - change (String c pre +:+ t) with (String c (pre +:+ t)).
    cbn [final_depth] in Hd. destruct depth as [|d]; cbn [scan_options].
    + destruct (Ascii.eqb c open_brace).
      * apply IH, Hd.
      * destruct (Ascii.eqb c close_brace); rewrite (IH _ _ _ Hd); reflexivity.
    + destruct (Ascii.eqb c open_brace); [apply IH, Hd|].
      destruct (Ascii.eqb c close_brace); [|apply IH, Hd].
      destruct d as [|d]; [|apply IH, Hd].
      rewrite (IH _ _ _ Hd). cbn [fst snd]. now rewrite app_assoc_string.
Qed.

Lemma pick_middle (u : Q) :
  (1 # 3 <= u)%Q -> (u < 2 # 3)%Q -> Select.pick [1 # 3; 1 # 3; 1 # 3]%Q u = 1.
Proof.
  intros Hlo Hhi. cbn [Select.pick].
  assert (H1 : Qle_bool (1 # 3) u = true) by (apply Qle_bool_iff; exact Hlo).
  assert (H2 : Qle_bool (1 # 3) (u - (1 # 3)) = false).
  { destruct (Qle_bool (1 # 3) (u - (1 # 3))) eqn:E; [|reflexivity].
    apply Qle_bool_iff in E. lra. }
  now rewrite H1, H2.
Qed.

Lemma choose_one (opts : list (nat * Select.WeightedOption)) (g : G) (i : nat)
      (o : nat * Select.WeightedOption) :
  opts <> [] ->
  Select.pick (Select.normalized_probabilities
                 (map (fun o => Select.weight (snd o)) opts)) (fst (random g)) = i ->
  nth_error opts i = Some o ->
  Select.choose random 1 opts g = ([o], snd (random g)).
Proof.
  intros Hne Hi Ho. destruct opts as [|x opts]; [contradiction|].
  cbn [Select.choose]. rewrite Hi, Ho. reflexivity.
Qed.

(** What the option pass does with malformed blocks: a block that is never
    closed is left as literal text: the option pass returns a text without
    closing brace as it is; after a text whose blocks are all closed it
    copies a block that is never closed and all that follows it;
    [process("{a|b", seed)] returns [{a|b] after one pass, whatever the
    store, the generator and the seed; the empty segment of [{a||b}] is an
    option like the others, and it is the one selected when the draw falls
    in the middle third. *)
Lemma replace_options_keeps_malformed_blocks :
  (forall text g,
      has_char close_brace text = false ->
      replace_options random text g = (text, g))
  /\ (forall pre rest g,
         final_depth pre 0 = 0 -> unclosed rest 1 = true ->
         replace_options random (pre +:+ String open_brace rest) g
         = (fst (replace_options random pre g) +:+ String open_brace rest,
            snd (replace_options random pre g)))
  /\ (forall find read seed st,
         process seed_rng random find read "{a|b" seed st
         = Ok (Outcome "{a|b" (seed_rng seed) 1, st))
  /\ map (fun o => Select.text (snd o)) (block_options "a||b") = ["a"; ""; "b"]
  /\ (forall g,
         (1 # 3 <= fst (random g))%Q -> (fst (random g) < 2 # 3)%Q ->
         replace_options random "{a||b}" g = ("", snd (random g))).
Proof.
  split; [|split; [|split; [|split]]].
  - intros text g H. unfold replace_options. now rewrite scan_options_no_close.
  - intros pre rest g Hpre Hrest. unfold replace_options.
    rewrite (scan_options_app pre _ 0 EmptyString g Hpre).
    cbn [scan_options]. change (Ascii.eqb open_brace open_brace) with true. cbv iota.
    rewrite (scan_options_unclosed rest 0 EmptyString _ Hrest). reflexivity.
  - intros find read seed st. reflexivity.
  - reflexivity.
  - intros g Hlo Hhi.
    assert (He : expand_block random "a||b" g = ("", snd (random g))).
    { unfold expand_block, select_block.
      change (parse_block "a||b") with (@None (nat * nat), ", ", "a||b").
      cbv iota beta.
      rewrite (choose_one (block_options "a||b") g 1 (1, Select.WOption 1 ""));
        [reflexivity|discriminate| |reflexivity].
      change (Select.normalized_probabilities
                (map (fun o => Select.weight (snd o)) (block_options "a||b")))
        with [1 # 3; 1 # 3; 1 # 3]%Q.
      apply pick_middle; assumption. }
    unfold replace_options. cbn -[expand_block]. rewrite He. reflexivity.
Qed.



End MalformedFacts.

(** ** Selection engine *)
Section SelectFacts.
Import Select Options.
Context {G : Type}.
Variable random : G -> Q * G.








Lemma enumerate_length {A : Type} (l : list A) : length (enumerate l) = length l.
Proof. unfold enumerate. rewrite length_combine, length_seq. lia. Qed.





End SelectFacts.



(** ** Weighted selection *)
Section WeightFacts.
Import Select Options.
Context {G : Type}.
Variable random : G -> Q * G.
Local Open Scope Q_scope.

Lemma Qle_bool_false (p u : Q) : Qle_bool p u = false -> u < p.
Proof.
  intros E. destruct (Qlt_le_dec u p) as [H|H]; [exact H|].
  apply Qle_bool_iff in H. congruence.
Qed.

Lemma total_weight_nonneg (ps : list Q) :
  Forall (fun p => 0 <= p) ps -> 0 <= total_weight ps.
Proof.
  induction 1 as [|p ps Hp _ IH]; simpl; [apply Qle_refl|].
  change (0 <= p + total_weight ps). lra.
Qed.

Lemma in_firstn {A : Type} (x : A) (i : nat) (l : list A) :
  In x (firstn i l) -> In x l.
Proof.
  revert l. induction i as [|i IH]; intros [|y l]; simpl; try contradiction.
  intros [->|H]; auto.
Qed.

Lemma cumulative_nonneg (ps : list Q) (i : nat) :
  Forall (fun p => 0 <= p) ps -> 0 <= cumulative ps i.
Proof.
  intros H. apply total_weight_nonneg.
  apply List.Forall_forall. intros x Hx.
  apply (proj1 (List.Forall_forall _ _) H). eapply in_firstn, Hx.
Qed.

(** The draws that select option [i] are those of an interval of length
    [nth i ps]. *)
Lemma pick_interval (ps : list Q) :
  Forall (fun p => 0 <= p) ps ->
  forall u i,
    0 <= u -> u < total_weight ps -> (i < length ps)%nat ->
    (pick ps u = i <-> cumulative ps i <= u /\ u < cumulative ps i + nth i ps 0).
Proof.
  induction 1 as [|p ps Hp Hps IH]; intros u i Hu Ht Hi; [simpl in Hi; lia|].
  change (total_weight (p :: ps)) with (p + total_weight ps) in Ht.
  destruct ps as [|q r].
  - simpl in Hi. assert (i = 0)%nat as -> by lia.
    unfold cumulative. simpl in *. split; [intros _; lra|reflexivity].
  - change (pick (p :: q :: r) u)
      with (if Qle_bool p u then S (pick (q :: r) (u - p)) else 0%nat).
    destruct (Qle_bool p u) eqn:E.
    + apply Qle_bool_iff in E. destruct i as [|j].
      * unfold cumulative. simpl. split; [discriminate|]. intros [_ H]. lra.
      * specialize (IH (u - p) j ltac:(lra) ltac:(lra) ltac:(simpl in *; lia)).
        change (cumulative (p :: q :: r) (S j)) with (p + cumulative (q :: r) j).
        change (nth (S j) (p :: q :: r) 0) with (nth j (q :: r) 0).
        rewrite Nat.succ_inj_wd, IH. split; intros [H1 H2]; split; lra.
    + apply Qle_bool_false in E. destruct i as [|j].
      * unfold cumulative. simpl. split; [intros _; lra|reflexivity].
      * change (cumulative (p :: q :: r) (S j)) with (p + cumulative (q :: r) j).
        pose proof (cumulative_nonneg (q :: r) j Hps).
        split; [discriminate|]. intros [H1 _]. lra.
Qed.

Lemma total_weight_scaled (ws : list Q) (t : Q) :
  ~ t == 0 -> total_weight (map (fun w => w / t) ws) == total_weight ws / t.
Proof.
  intros Ht. induction ws as [|w ws IH]; simpl.
  - field. exact Ht.
  - change (w / t + total_weight (map (fun w => w / t) ws)
            == (w + total_weight ws) / t).
    rewrite IH. field. exact Ht.
Qed.

Lemma normalized_total (ws : list Q) :
  0 < total_weight ws -> total_weight (normalized_probabilities ws) == 1.
Proof.
  intros Ht. unfold normalized_probabilities.
  rewrite total_weight_scaled by lra. field. lra.
Qed.

Lemma normalized_nonneg (ws : list Q) :
  Forall (fun w => 0 <= w) ws -> 0 < total_weight ws ->
  Forall (fun p => 0 <= p) (normalized_probabilities ws).
Proof.
  intros H Ht. unfold normalized_probabilities.
  apply List.Forall_forall. intros x Hx. apply in_map_iff in Hx as (w & <- & Hw).
  apply Qle_shift_div_l; [exact Ht|].
  pose proof (proj1 (List.Forall_forall _ _) H w Hw) as Hw0. cbv beta in Hw0. lra.
Qed.

Lemma normalized_nth (ws : list Q) (i : nat) :
  (i < length ws)%nat ->
  nth i (normalized_probabilities ws) 0 = nth i ws 0 / total_weight ws.
Proof.
  intros Hi. unfold normalized_probabilities.
  rewrite (nth_indep _ 0 (0 / total_weight ws)) by (now rewrite length_map).
  apply (map_nth (fun w => w / total_weight ws)).
Qed.

Lemma parse_number_nonneg (s : string) (q : Q) :
  parse_number s = Some q -> 0 <= q.
Proof.
  unfold parse_number.
  destruct (split_on "." s) as [|i [|f [|x l]]]; try discriminate.
  - destruct (parse_nat i); [|discriminate].
    intros [= <-]. unfold Qle. cbn [Qnum Qden]. lia.
  - destruct (is_empty i && is_empty f); [discriminate|].
    destruct (digits_value i 0) as [n|]; [|discriminate].
    destruct (digits_value f 0) as [m|]; [|discriminate].
    set (scale := Pos.pow 10 (Pos.of_nat (String.length f))).
    destruct (is_empty f); intros [= <-]; unfold Qle; cbn [Qnum Qden]; nia.
Qed.

Lemma segment_weight_nonneg (seg : string) : 0 <= weight (parse_segment seg).
Proof.
  unfold parse_segment.
  destruct (split_once "::" seg) as [[w t]|]; [|simpl; lra].
  destruct (parse_number (strip w)) as [q|] eqn:E; [|simpl; lra].
  simpl. eapply parse_number_nonneg, E.
Qed.

Lemma block_weights_nonneg (body : string) :
  Forall (fun w => 0 <= w) (map (fun o => weight (snd o)) (block_options body)).
Proof.
  apply List.Forall_forall. intros w Hw. apply in_map_iff in Hw as ([i o] & <- & Ho).
  unfold block_options, enumerate in Ho. apply in_combine_r in Ho.
  apply in_map_iff in Ho as (seg & <- & _). apply segment_weight_nonneg.
Qed.

(** *** A block read from its text *)

(** A segment that holds no pipe and no brace. *)
Local Abbreviation plain seg :=
  (has_char pipe seg || has_char open_brace seg || has_char close_brace seg = false).

Lemma plain_cons (c : ascii) (s : string) :
  plain (String c s) ->
  Ascii.eqb c pipe = false /\ Ascii.eqb c open_brace = false
  /\ Ascii.eqb c close_brace = false /\ plain s.
Proof.
  cbn [has_char]. intros H.
  apply orb_false_iff in H as [H H3]. apply orb_false_iff in H as [H1 H2].
  apply orb_false_iff in H1 as [H1 H1']. apply orb_false_iff in H2 as [H2 H2'].
  apply orb_false_iff in H3 as [H3 H3'].
  rewrite H1', H2', H3'. auto.
Qed.

Lemma split_top_plain (s : string) : plain s -> split_top s 0 = [s].
Proof.
  induction s as [|c s IH]; intros H; [reflexivity|].
  apply plain_cons in H as (H1 & H2 & H3 & Hs).
  cbn [split_top]. rewrite H1, H2, H3. cbn [andb]. now rewrite (IH Hs).
Qed.

Lemma split_top_app (a b : string) :
  plain a -> split_top (a +:+ String pipe b) 0 = a :: split_top b 0.
Proof.
  induction a as [|c a IH]; intros H.
  - change (EmptyString +:+ String pipe b) with (String pipe b).
    cbn [split_top]. now rewrite Ascii.eqb_refl.
  - apply plain_cons in H as (H1 & H2 & H3 & Ha).
    change (String c a +:+ String pipe b) with (String c (a +:+ String pipe b)).
    cbn [split_top]. rewrite H1, H2, H3. cbn [andb]. now rewrite (IH Ha).
Qed.

(** The segments of a block are what stands between its pipes. *)
Lemma split_top_join (segs : list string) :
  segs <> [] -> Forall (fun seg => plain seg) segs ->
  split_top (join "|" segs) 0 = segs.
Proof.
  induction segs as [|seg segs IH]; [contradiction|].
  intros _ Hall. inversion Hall as [|? ? Hseg Hrest]; subst.
  destruct segs as [|seg' segs].
  - now apply split_top_plain.
  - unfold join in *. rewrite concat_cons2.
    change ("|" +:+ String.concat "|" (seg' :: segs))
      with (String pipe (String.concat "|" (seg' :: segs))).
    rewrite split_top_app by exact Hseg.
    rewrite IH; [reflexivity|discriminate|exact Hrest].
Qed.

Lemma has_char_join (c : ascii) (segs : list string) :
  Ascii.eqb pipe c = false ->
  Forall (fun seg => has_char c seg = false) segs ->
  has_char c (join "|" segs) = false.
Proof.
  intros Hc. induction 1 as [|seg segs Hseg Hrest IH]; [reflexivity|].
  destruct segs as [|seg' segs]; [exact Hseg|].
  unfold join in *. rewrite concat_cons2, !has_char_app, Hseg, IH.
  cbn [has_char]. unfold pipe in Hc. now rewrite Hc.
Qed.

(** In a block without inner block the scan reads up to the closing brace,
    replaces the block and goes on after it. *)
Lemma scan_options_block (body : string) :
  has_char open_brace body = false -> has_char close_brace body = false ->
  forall rest buf g,
    scan_options random (body +:+ String close_brace rest) 1 buf g
    = (fst (expand_block random (rev buf +:+ body) g)
       +:+ fst (scan_options random rest 0 EmptyString
                             (snd (expand_block random (rev buf +:+ body) g))),
       snd (scan_options random rest 0 EmptyString
                         (snd (expand_block random (rev buf +:+ body) g)))).
Proof.
  induction body as [|c body IH]; intros Ho Hc rest buf g.
  - change (EmptyString +:+ String close_brace rest) with (String close_brace rest).
    rewrite app_empty_r. cbn [scan_options].
    change (Ascii.eqb close_brace open_brace) with false.
    now rewrite Ascii.eqb_refl.
  - cbn [has_char] in Ho, Hc.
    apply orb_false_iff in Ho as [Ho1 Ho]. apply orb_false_iff in Hc as [Hc1 Hc].
    change (String c body +:+ String close_brace rest)
      with (String c (body +:+ String close_brace rest)).
    cbn [scan_options]. rewrite Ho1, Hc1.
    rewrite (IH Ho Hc). now rewrite rev_push.
Qed.

Lemma replace_options_block (body : string) (g : G) :
  has_char open_brace body = false -> has_char close_brace body = false ->
  replace_options random (String open_brace (body +:+ String close_brace EmptyString)) g
  = expand_block random body g.
Proof.
  intros Ho Hc. unfold replace_options. cbn [scan_options].
  rewrite Ascii.eqb_refl. rewrite (scan_options_block body Ho Hc).
  cbn [scan_options fst snd rev rev_acc].
  change (EmptyString +:+ body) with body. rewrite app_empty_r.
  now destruct (expand_block random body g).
Qed.

Lemma split_once_None (sep s : string) :
  contains sep s = false -> split_once sep s = None.
Proof.
  induction s as [|c s IH]; cbn [contains split_once]; intros H;
    apply orb_false_iff in H as [H1 H2]; rewrite H1; [reflexivity|].
  now rewrite (IH H2).
Qed.

Lemma combine_seq_nth {A : Type} (l : list A) (d : A) :
  forall start i,
    (i < length l)%nat ->
    nth_error (combine (seq start (length l)) l) i = Some ((start + i)%nat, nth i l d).
Proof.
  induction l as [|x l IH]; intros start i Hi; [simpl in Hi; lia|].
  destruct i as [|i]; simpl.
  - now rewrite Nat.add_0_r.
  - rewrite (IH (S start) i) by (simpl in Hi; lia). do 2 f_equal. lia.
Qed.

Lemma combine_seq_snd {A : Type} (l : list A) :
  forall start, map snd (combine (seq start (length l)) l) = l.
Proof. induction l as [|x l IH]; intros start; simpl; [reflexivity|]. now rewrite IH. Qed.

(** The block [{seg1|...|segn}] as the option pass reads it: the options
    are the segments, in order, each with the weight of its prefix. *)
Lemma block_options_join (segs : list string) :
  segs <> [] -> Forall (fun seg => plain seg) segs ->
  block_options (join "|" segs) = enumerate (map parse_segment segs).
Proof. intros Hne Hall. unfold block_options. now rewrite split_top_join. Qed.

(** The replacement of a block of weighted options by one draw. *)
Lemma weighted_block_draw (segs : list string) (g : G) (i : nat) :
  segs <> [] -> Forall (fun seg => plain seg) segs ->
  contains "$$" (join "|" segs) = false ->
  (i < length segs)%nat ->
  pick (normalized_probabilities (map (fun seg => weight (parse_segment seg)) segs))
       (fst (random g)) = i ->
  replace_options random
                  (String open_brace (join "|" segs +:+ String close_brace EmptyString)) g
  = (text (parse_segment (nth i segs EmptyString)), snd (random g)).
Proof.
  intros Hne Hall Hdd Hi Hpick.
  assert (Hplain : forall c, Ascii.eqb pipe c = false ->
                             Forall (fun seg => has_char c seg = false) segs ->
                             has_char c (join "|" segs) = false)
    by (intros c; apply has_char_join).
  rewrite replace_options_block.
  - unfold expand_block, select_block, parse_block.
    rewrite (split_once_None _ _ Hdd). cbv iota beta.
    rewrite (block_options_join segs Hne Hall).
    rewrite (choose_one random (enumerate (map parse_segment segs)) g i
                        (i, parse_segment (nth i segs EmptyString))).
    + reflexivity.
    + intros E. apply (f_equal (@length _)) in E.
      rewrite enumerate_length, length_map in E.
      destruct segs; [contradiction|discriminate].
    + rewrite <- Hpick. do 2 f_equal.
      unfold enumerate. rewrite <- (map_map snd weight), combine_seq_snd.
      apply map_map.
    + unfold enumerate.
      rewrite (combine_seq_nth _ (parse_segment EmptyString)) by (now rewrite length_map).
      cbn [Nat.add]. do 2 f_equal.
      apply (map_nth parse_segment).
  - apply Hplain; [reflexivity|].
    eapply List.Forall_impl; [|exact Hall]. intros seg H.
    apply orb_false_iff in H as [H _]. now apply orb_false_iff in H as [_ H].
  - apply Hplain; [reflexivity|].
    eapply List.Forall_impl; [|exact Hall]. intros seg H.
    now apply orb_false_iff in H as [_ H].
Qed.

(** C5: the weight of a segment is the number before its first [::]; a
    segment without [::], or with something else than a number before it
    ([text::weight]), has weight 1 and is kept whole.  The probabilities of
    a block are the weights of its segments divided by their sum, they add
    up to 1, and under a uniform draw [u] of [0,1) the option pass replaces
    the block [{seg1|...|segn}] by the text of segment [i] exactly on an
    interval of draws whose length is the probability of [i].  The option pass
    replaces [{10::common|1::rare}] by [common] when the draw is below 10/11
    and by [rare] otherwise, and [{common::10|rare::1}] by [common::10] when
    the draw is below 1/2 and by [rare::1] otherwise, whatever the
    generator. *)
Theorem weighted_selection_probability :
  (forall seg w t q,
      split_once "::" seg = Some (w, t) -> parse_number (strip w) = Some q ->
      parse_segment seg = WOption q t)
  /\ (forall seg w t,
         split_once "::" seg = Some (w, t) -> parse_number (strip w) = None ->
         parse_segment seg = WOption 1 seg)
  /\ (forall seg, split_once "::" seg = None -> parse_segment seg = WOption 1 seg)
  /\ (forall segs (g : G) i,
         let ws := map (fun seg => weight (parse_segment seg)) segs in
         let ps := normalized_probabilities ws in
         let u := fst (random g) in
         segs <> [] -> Forall (fun seg => plain seg) segs ->
         contains "$$" (join "|" segs) = false ->
         0 < total_weight ws -> (i < length segs)%nat ->
         0 <= u -> u < 1 ->
         nth i ps 0 = nth i ws 0 / total_weight ws
         /\ total_weight ps == 1
         /\ (cumulative ps i <= u /\ u < cumulative ps i + nth i ps 0 <->
             pick ps u = i)
         /\ (pick ps u = i ->
             replace_options random
               (String open_brace (join "|" segs +:+ String close_brace EmptyString)) g
             = (text (parse_segment (nth i segs EmptyString)), snd (random g))))
  /\ (forall g : G,
         replace_options random "{10::common|1::rare}" g
         = (if Qle_bool (10 # 11) (fst (random g)) then "rare" else "common",
            snd (random g)))
  /\ (forall g : G,
         replace_options random "{common::10|rare::1}" g
         = (if Qle_bool (1 # 2) (fst (random g)) then "rare::1" else "common::10",
            snd (random g))).
Proof.
  split; [|split; [|split; [|split; [|split]]]].
  - intros seg w t q Hs Hq. unfold parse_segment. now rewrite Hs, Hq.
  - intros seg w t Hs Hq. unfold parse_segment. now rewrite Hs, Hq.
  - intros seg Hs. unfold parse_segment. now rewrite Hs.
  - intros segs g i ws ps u Hne Hall Hdd Ht Hi Hu Hu1.
    assert (Hlen : (i < length ws)%nat) by (unfold ws; now rewrite length_map).
    assert (Hnn : Forall (fun w => 0 <= w) ws).
    { unfold ws. apply List.Forall_forall. intros w Hw.
      apply in_map_iff in Hw as (seg & <- & _). apply segment_weight_nonneg. }
    pose proof (normalized_total ws Ht) as Hone.
    split; [apply normalized_nth, Hlen|]. split; [exact Hone|]. split.
    + symmetry. apply pick_interval.
      * apply normalized_nonneg; assumption.
      * exact Hu.
      * unfold ps. rewrite Hone. exact Hu1.
      * unfold ps, normalized_probabilities. now rewrite length_map.
    + intros Hpick. now apply weighted_block_draw.
  - intros g.
    change "{10::common|1::rare}"
      with (String open_brace ("10::common|1::rare" +:+ String close_brace EmptyString)).
    rewrite replace_options_block by reflexivity.
    unfold expand_block, select_block.
    change (parse_block "10::common|1::rare")
      with (@None (nat * nat), ", ", "10::common|1::rare").
    cbv iota beta.
    change (block_options "10::common|1::rare")
      with [(0%nat, WOption 10 "common"); (1%nat, WOption 1 "rare")].
    cbn [choose map snd weight].
    change (normalized_probabilities [10; 1]) with [10 # 11; 1 # 11].
    cbn [pick]. destruct (Qle_bool (10 # 11) (fst (random g))); reflexivity.
  - intros g.
    change "{common::10|rare::1}"
      with (String open_brace ("common::10|rare::1" +:+ String close_brace EmptyString)).
    rewrite replace_options_block by reflexivity.
    unfold expand_block, select_block.
    change (parse_block "common::10|rare::1")
      with (@None (nat * nat), ", ", "common::10|rare::1").
    cbv iota beta.
    change (block_options "common::10|rare::1")
      with [(0%nat, WOption 1 "common::10"); (1%nat, WOption 1 "rare::1")].
    cbn [choose map snd weight].
    change (normalized_probabilities [1; 1]) with [1 # 2; 1 # 2].
    cbn [pick]. destruct (Qle_bool (1 # 2) (fst (random g))); reflexivity.
Qed.

End WeightFacts.

(** Instances: a decimal weight, a segment [text::weight], and the block
    [{5::red|green|2::blue}] under a generator whose draw is one half,
    which falls in the first five eighths. *)
Lemma weighted_selection_probability_witness :
  Select.parse_segment "0.5::x::y" = Select.WOption (5 # 10) "x::y"
  /\ Select.parse_segment "red::5" = Select.WOption 1 "red::5"
  /\ Options.replace_options (fun g : unit => (1 # 2, g)) "{5::red|green|2::blue}" tt
     = ("red", tt).
Proof.
  pose proof (weighted_selection_probability (fun g : unit => (1 # 2, g)))
    as (H1 & H2 & _ & H4 & _).
  split; [|split].
  - apply (H1 "0.5::x::y" "0.5" "x::y"); reflexivity.
  - apply (H2 "red::5" "red" "5"); reflexivity.
  - destruct (H4 ["5::red"; "green"; "2::blue"] tt 0) as (_ & _ & Hiff & Hdraw).
    + discriminate.
    + repeat constructor.
    + reflexivity.
    + reflexivity.
    + cbn [length]. lia.
    + discriminate.
    + reflexivity.
    + apply Hdraw. apply Hiff. split; [vm_compute; discriminate|vm_compute; reflexivity].
Defined.


(** Instances: the cycle under the example generator, and a text with a
    block and a reference on the dragon store, which is returned after the
    pass that leaves it unchanged. *)
Lemma process_pass_ceiling_witness :
  (exists o st',
      Engine.process (fun z => z) Examples.lcg
                     Examples.cyclic_find Examples.cyclic_read
                     "__A__" 1 Examples.cyclic_state = Ok (o, st')
      /\ Engine.out_text o = "__A__" /\ Engine.out_passes o = 100)
  /\ (exists n,
         1 <= n <= 100
         /\ match Engine.passes Examples.lcg Examples.dragon_find Examples.dragon_read n
                                (Comment.process_comment_out "__dragon__ and {x|y}")
                                1%Z Examples.dragon_state with
            | Raise e => False
            | Ok ((t, g'), st') =>
                Engine.process (fun z => z) Examples.lcg
                               Examples.dragon_find Examples.dragon_read
                               "__dragon__ and {x|y}" 1 Examples.dragon_state
                = Ok (Engine.Outcome t g' n, st')
            end).
Proof.
  split.
  - apply (proj2 (proj2 (process_pass_ceiling (fun z => z) Examples.lcg))).
  - destruct (proj1 (process_pass_ceiling (fun z => z) Examples.lcg)
                    Examples.dragon_find Examples.dragon_read
                    "__dragon__ and {x|y}" 1%Z Examples.dragon_state)
      as (n & Hn & _ & Hend).
    exists n. split; [exact Hn|].
    destruct (Engine.passes Examples.lcg Examples.dragon_find Examples.dragon_read n
                            (Comment.process_comment_out "__dragon__ and {x|y}")
                            1%Z Examples.dragon_state) as [[[t g'] st']|e].
    + exact (proj1 Hend).
    + assert (Hok : exists o st',
                 Engine.process (fun z => z) Examples.lcg
                                Examples.dragon_find Examples.dragon_read
                                "__dragon__ and {x|y}" 1 Examples.dragon_state
                 = Ok (o, st')) by (vm_compute; eauto).
      destruct Hok as (o & st' & Hok). rewrite Hok in Hend. discriminate Hend.
Defined.

(** An instance: two successive calls on the dragon store. *)
Lemma process_deterministic_witness :
  exists o st1 st2,
    Engine.process (fun z => z) Examples.lcg Examples.dragon_find Examples.dragon_read
                   "a {big|small} __Dragon__" 7 Examples.dragon_state = Ok (o, st1)
    /\ Engine.process (fun z => z) Examples.lcg Examples.dragon_find Examples.dragon_read
                      "a {big|small} __Dragon__" 7 st1 = Ok (o, st2).
Proof.
  destruct (Engine.process (fun z => z) Examples.lcg
                           Examples.dragon_find Examples.dragon_read
                           "a {big|small} __Dragon__" 7 Examples.dragon_state)
    as [[o st1]|e] eqn:E.
  - destruct (proj1 (process_deterministic (fun z => z) Examples.lcg
                       Examples.dragon_find Examples.dragon_read
                       _ _ _ o st1 E)) as (st2 & E2).
    exists o, st1, st2. split; [reflexivity|exact E2].
  - vm_compute in E. discriminate E.
Defined.

(** ** Prefixes, suffixes and substrings *)
Section AffixFacts.

Lemma rev_cons (c : ascii) (s : string) : rev (String c s) = rev s +:+ String c "".
Proof. rewrite <- (app_empty_r (rev (String c s))). apply rev_push. Qed.

Lemma rev_app (a b : string) : rev (a +:+ b) = rev b +:+ rev a.
Proof.
  induction a as [|c a IH].
  - change (rev b = rev b +:+ ""). now rewrite app_empty_r.
  - change (rev (String c (a +:+ b)) = rev b +:+ rev (String c a)).
    rewrite !rev_cons, IH. apply app_assoc_string.
Qed.

Lemma rev_involutive (s : string) : rev (rev s) = s.
Proof.
  induction s as [|c s IH]; [reflexivity|].
  change (String c s) with (String c "" +:+ s) at 1.
  rewrite rev_app, rev_app, IH. reflexivity.
Qed.

Lemma startswith_iff (p s : string) :
  startswith p s = true <-> exists t, s = p +:+ t.
Proof.
  split.
  - revert s. induction p as [|a p IH]; intros s H.
    + now exists s.
    + destruct s as [|b s]; [discriminate|]. simpl in H.
      apply andb_true_iff in H as [Hab Hp].
      apply Ascii.eqb_eq in Hab as ->.
      destruct (IH s Hp) as [t ->]. now exists t.
  - intros [t ->]. apply startswith_app.
Qed.

Lemma endswith_iff (p s : string) :
  endswith p s = true <-> exists t, s = t +:+ p.
Proof.
  unfold endswith. rewrite startswith_iff. split.
  - intros [t Ht]. exists (rev t).
    rewrite <- (rev_involutive s), Ht, rev_app, rev_involutive. reflexivity.
  - intros [t ->]. exists (rev t). apply rev_app.
Qed.

Lemma contains_iff (sub s : string) :
  contains sub s = true <-> exists a b, s = a +:+ sub +:+ b.
Proof.
  split.
  - induction s as [|c s IH]; simpl; intros H.
    + rewrite orb_false_r in H. apply startswith_iff in H as [t Ht].
      exists "", t. exact Ht.
    + apply orb_true_iff in H as [H|H].
      * apply startswith_iff in H as [t Ht]. exists "", t. exact Ht.
      * destruct (IH H) as (a & b & ->). now exists (String c a), b.
  - intros (a & b & ->). induction a as [|c a IH].
    + change (contains sub (sub +:+ b) = true).
      destruct (sub +:+ b) eqn:E; simpl; rewrite <- E, startswith_app; reflexivity.
    + change (contains sub (String c (a +:+ sub +:+ b)) = true).
      simpl. rewrite IH. apply orb_true_r.
Qed.

End AffixFacts.

(** ** Depth-agnostic matching (DESIGN 2.2.1) *)
Section MatchFacts.
Import Store.

(** X1: a stored key matches a search key exactly when the search key is
    the stored key, or stands in it as a run of whole path components: at
    its end after a slash, at its start before a slash, or in between two
    slashes. *)
Theorem matches_depth_agnostic_components (stored_key search_key : string) :
  matches_depth_agnostic stored_key search_key = true
  <-> stored_key = search_key
      \/ (exists a, stored_key = a +:+ "/" +:+ search_key)
      \/ (exists b, stored_key = search_key +:+ "/" +:+ b)
      \/ (exists a b, stored_key = a +:+ "/" +:+ search_key +:+ "/" +:+ b).
Proof.
  unfold matches_depth_agnostic.
  rewrite !orb_true_iff, String.eqb_eq, endswith_iff, startswith_iff, contains_iff.
  split.
  - intros [[[H|[a H]]|[b H]]|(a & b & H)].
    + now left.
    + right; left. now exists a.
    + right; right; left. exists b. now rewrite H, app_assoc_string.
    + right; right; right. exists a, b.
      now rewrite H, !app_assoc_string.
  - intros [H|[[a H]|[[b H]|(a & b & H)]]].
    + now left; left; left.
    + left; left; right. now exists a.
    + left; right. exists b. now rewrite H, app_assoc_string.
    + right. exists a, b. now rewrite H, !app_assoc_string.
Qed.

(** X2: a stored key without a slash matches no search key but itself: a
    search key that is only a part of its name does not match. *)
Theorem matches_depth_agnostic_flat (stored_key search_key : string) :
  has_char "/" stored_key = false ->
  matches_depth_agnostic stored_key search_key = true ->
  stored_key = search_key.
Proof.
  intros Hflat. unfold matches_depth_agnostic.
  rewrite !orb_true_iff, String.eqb_eq, endswith_iff, startswith_iff, contains_iff.
  assert (Hno : forall a b, stored_key <> a +:+ "/" +:+ b).
  { intros a b E. rewrite E, has_char_app in Hflat.
    change ("/" +:+ b) with (String "/" b) in Hflat. simpl in Hflat.
    now rewrite orb_true_r in Hflat. }
  intros [[[H|[a H]]|[b H]]|(a & b & H)]; [exact H| | |].
  - now apply Hno in H.
  - rewrite app_assoc_string in H. now apply Hno in H.
  - rewrite app_assoc_string in H. now apply Hno in H.
Qed.

End MatchFacts.

(** A flat key of the index and a search key that is a part of its name. *)
Lemma matches_depth_agnostic_flat_witness :
  has_char "/" "dragon" = false
  /\ Store.matches_depth_agnostic "dragon" "dragon" = true
  /\ "dragon" = "dragon".
Proof.
  split; [reflexivity|]. split; [reflexivity|].
  apply (matches_depth_agnostic_flat "dragon" "dragon"); reflexivity.
Defined.

(** ** Key normalization (DESIGN 2.4.2) *)
Section NormalizeFacts.
Import Store.

(** What [wildcard_normalize] does to one character. *)
Local Abbreviation normalize_ascii c :=
  (if Ascii.eqb (lower_ascii c) "\" then "/"%char else lower_ascii c).

Lemma wildcard_normalize_cons (c : ascii) (s : string) :
  wildcard_normalize (String c s) = String (normalize_ascii c) (wildcard_normalize s).
Proof. reflexivity. Qed.

Lemma normalize_ascii_fixed (c : ascii) :
  normalize_ascii (normalize_ascii c) = normalize_ascii c
  /\ lower_ascii (normalize_ascii c) = normalize_ascii c
  /\ Ascii.eqb (normalize_ascii c) "\" = false.
Proof.
  destruct c as [[] [] [] [] [] [] [] []]; vm_compute; repeat split; reflexivity.
Qed.

Lemma is_ascii_length (x : string) :
  is_ascii x = true -> String.length (wildcard_normalize x) = String.length x.
Proof.
  induction x as [|c x IH]; [reflexivity|]. cbn [is_ascii]. intros H.
  apply andb_true_iff in H as [_ H]. rewrite wildcard_normalize_cons.
  cbn [String.length]. now rewrite (IH H).
Qed.

(** X3: normalizing a key twice is normalizing it once; a normalized key
    has no upper-case ASCII letter and no backslash; and the normalized
    form of an ASCII key has the length of the key. *)
Theorem wildcard_normalize_canonical (x : string) :
  wildcard_normalize (wildcard_normalize x) = wildcard_normalize x
  /\ lower (wildcard_normalize x) = wildcard_normalize x
  /\ has_char "\" (wildcard_normalize x) = false
  /\ (is_ascii x = true ->
      String.length (wildcard_normalize x) = String.length x).
Proof.
  split; [|split; [|split; [|apply is_ascii_length]]].
  - induction x as [|c x IH]; [reflexivity|]. rewrite !wildcard_normalize_cons.
    destruct (normalize_ascii_fixed c) as (H1 & _ & _). now rewrite H1, IH.
  - induction x as [|c x IH]; [reflexivity|]. rewrite !wildcard_normalize_cons.
    destruct (normalize_ascii_fixed c) as (_ & H2 & _). cbn [lower]. now rewrite H2, IH.
  - induction x as [|c x IH]; [reflexivity|]. rewrite !wildcard_normalize_cons.
    destruct (normalize_ascii_fixed c) as (_ & _ & H3). cbn [has_char]. now rewrite H3, IH.
Qed.

End NormalizeFacts.

(** ** Keys and the wildcard root (DESIGN 9.1) *)
Section RootFacts.
Import Security.










End RootFacts.



(** ** Loading mode (DESIGN 2.3.1) *)
Section ModeFacts.
Import Mode.

Lemma bytes_le (a b : N) : (a <= b)%N -> (bytes a <= bytes b)%Q.
Proof. intros H. unfold bytes. rewrite <- Zle_Qle. lia. Qed.

Lemma calculate_from_bounds (limit : Q) (files : list N) (size : N) :
  (size <= calculate_from limit size files)%N
  /\ (calculate_from limit size files <= size + directory_size files)%N.
Proof.
  revert size. induction files as [|f files IH]; intros size; simpl.
  - lia.
  - destruct (Qle_bool limit (bytes (size + f))); [lia|].
    destruct (IH (size + f)%N). lia.
Qed.

(** Stopping the walk early does not change on which side of the limit
    the size falls, and a size below the limit is the size of the whole
    directory. *)
Lemma calculate_from_limit (limit : Q) (files : list N) (size : N) :
  Qle_bool limit (bytes (calculate_from limit size files))
  = Qle_bool limit (bytes (size + directory_size files))
  /\ (Qle_bool limit (bytes (calculate_from limit size files)) = false ->
      calculate_from limit size files = (size + directory_size files)%N).
Proof.
  revert size. induction files as [|f files IH]; intros size; simpl.
  - rewrite N.add_0_r. auto.
  - destruct (Qle_bool limit (bytes (size + f))) eqn:E.
    + rewrite E. split; [|discriminate]. symmetry.
      apply Qle_bool_iff. apply Qle_bool_iff in E.
      eapply Qle_trans; [exact E|]. apply bytes_le. lia.
    + rewrite N.add_assoc. apply IH.
Qed.

Lemma calculate_from_limit_mode (mb : Q) (files : list N) :
  determine_loading_mode mb files = ON_DEMAND_MODE
  <-> (cache_limit mb <= bytes (directory_size files))%Q.
Proof.
  unfold determine_loading_mode, calculate_directory_size.
  destruct (calculate_from_limit (cache_limit mb) files 0) as [Heq _].
  rewrite N.add_0_l in Heq. rewrite Heq, <- Qle_bool_iff.
  destruct (Qle_bool (cache_limit mb) (bytes (directory_size files)));
    split; intros H; try reflexivity; discriminate H.
Qed.

(** X6: the early termination of the size walk never changes the mode:
    on-demand mode is chosen exactly when the size of the whole directory
    reaches the limit; and whenever full cache mode is chosen the size that
    was computed is the size of the whole directory. *)
Theorem determine_loading_mode_total (wildcard_cache_limit_mb : Q) (files : list N) :
  (determine_loading_mode wildcard_cache_limit_mb files = ON_DEMAND_MODE
   <-> (cache_limit wildcard_cache_limit_mb <= bytes (directory_size files))%Q)
  /\ (determine_loading_mode wildcard_cache_limit_mb files = FULL_CACHE_MODE ->
      calculate_directory_size (cache_limit wildcard_cache_limit_mb) files
      = directory_size files).
Proof.
  unfold determine_loading_mode, calculate_directory_size.
  destruct (calculate_from_limit (cache_limit wildcard_cache_limit_mb) files 0)
    as [Heq Hfull].
  rewrite N.add_0_l in Heq, Hfull. split.
  - apply calculate_from_limit_mode.
  - destruct (Qle_bool _ (bytes (calculate_from _ 0 files))) eqn:E; [discriminate|].
    intros _. now apply Hfull.
Qed.

(** X7: on-demand mode is kept when the limit is lowered and when files
    are added to the directory. *)
Theorem determine_loading_mode_monotone
        (mb mb' : Q) (files more : list N) :
  (mb' <= mb)%Q ->
  determine_loading_mode mb files = ON_DEMAND_MODE ->
  determine_loading_mode mb' (files ++ more) = ON_DEMAND_MODE.
Proof.
  intros Hle H.
  apply (proj1 (calculate_from_limit_mode mb files)) in H.
  apply (proj2 (calculate_from_limit_mode mb' (files ++ more))).
  eapply Qle_trans; [|eapply Qle_trans; [exact H|]].
  - unfold cache_limit. lra.
  - apply bytes_le. unfold directory_size. rewrite fold_right_app.
    generalize (fold_right N.add 0%N more). intros n. clear H.
    induction files as [|f files IH]; simpl; lia.
Qed.

End ModeFacts.

(** A directory of two files of one megabyte: on demand under a limit of
    two megabytes, and under a limit of one with a third file added. *)
Lemma determine_loading_mode_monotone_witness :
  Mode.determine_loading_mode 1 [1048576%N; 1048576%N; 7%N] = Mode.ON_DEMAND_MODE.
Proof.
  apply (determine_loading_mode_monotone 2 1 [1048576%N; 1048576%N] [7%N]);
    [unfold Qle; simpl; lia|reflexivity].
Defined.

(** ** The availability index (DESIGN 2.3.2) *)
Section ScanFacts.
Import Store.

Lemma dict_get_keys {V : Type} (k : string) (v : V) (d : list (string * V)) :
  Dict.get k d = Some v -> In k (Dict.keys d).
Proof.
  induction d as [|[k' v'] d IH]; simpl; [discriminate|].
  destruct (String.eqb_spec k' k); [now left|]. intros H. right. now apply IH.
Qed.

Lemma dict_set_keys {V : Type} (k k' : string) (v : V) (d : list (string * V)) :
  In k' (Dict.keys (Dict.set k v d)) <-> k' = k \/ In k' (Dict.keys d).
Proof.
  induction d as [|[k0 v0] d IH]; simpl.
  - intuition.
  - destruct (String.eqb_spec k0 k) as [->|Hne]; simpl; [intuition|].
    rewrite IH. intuition.
Qed.

Lemma dict_set_NoDup {V : Type} (k : string) (v : V) (d : list (string * V)) :
  List.NoDup (Dict.keys d) -> List.NoDup (Dict.keys (Dict.set k v d)).
Proof.
  induction d as [|[k0 v0] d IH]; simpl; intros H.
  - constructor; [intros []|constructor].
  - apply List.NoDup_cons_iff in H as [Hin Hnd].
    destruct (String.eqb_spec k0 k) as [->|Hne]; simpl.
    + apply List.NoDup_cons_iff. now split.
    + apply List.NoDup_cons_iff. split; [|now apply IH].
      rewrite (dict_set_keys k k0 v d). intros [E|E]; [now apply Hne|contradiction].
Qed.

Local Abbreviation key_of rel := (wildcard_normalize (remove_extension rel)).

Lemma scan_step_keys (path rel k : string) (avail : list (string * string)) :
  In k (Dict.keys (scan_step path avail rel))
  <-> In k (Dict.keys avail) \/ (endswith ".txt" rel = true /\ k = key_of rel).
Proof.
  unfold scan_step. destruct (endswith ".txt" rel).
  - rewrite dict_set_keys. intuition.
  - intuition. discriminate.
Qed.

Lemma scan_keys (path : string) (walk : list string) (k : string)
      (avail : list (string * string)) :
  In k (Dict.keys (scan_wildcard_metadata path walk avail))
  <-> In k (Dict.keys avail)
      \/ exists rel, In rel walk /\ endswith ".txt" rel = true /\ k = key_of rel.
Proof.
  unfold scan_wildcard_metadata. revert avail.
  induction walk as [|r walk IH]; intros avail; simpl.
  - split; [now left|]. intros [H|(rel & [] & _)]. exact H.
  - rewrite IH, scan_step_keys. split.
    + intros [[H|[He Hk]]|(rel & Hin & He & Hk)].
      * now left.
      * right. exists r. auto.
      * right. exists rel. auto.
    + intros [H|(rel & [<-|Hin] & He & Hk)].
      * now left; left.
      * left; right. auto.
      * right. exists rel. auto.
Qed.

Lemma scan_NoDup (path : string) (walk : list string)
      (avail : list (string * string)) :
  List.NoDup (Dict.keys avail) ->
  List.NoDup (Dict.keys (scan_wildcard_metadata path walk avail)).
Proof.
  unfold scan_wildcard_metadata. revert avail.
  induction walk as [|r walk IH]; intros avail H; simpl; [exact H|].
  apply IH. unfold scan_step. destruct (endswith ".txt" r); [|exact H].
  now apply dict_set_NoDup.
Qed.

Lemma scan_get (path : string) (walk : list string) (k file : string)
      (avail : list (string * string)) :
  Dict.get k (scan_wildcard_metadata path walk avail) = Some file ->
  Dict.get k avail = Some file
  \/ exists rel, In rel walk /\ endswith ".txt" rel = true
                 /\ k = key_of rel /\ file = Security.path_join path rel.
Proof.
  unfold scan_wildcard_metadata. revert avail.
  induction walk as [|r walk IH]; intros avail H; simpl in *; [now left|].
  destruct (IH _ H) as [H'|(rel & Hin & He & Hk & Hf)].
  - unfold scan_step in H'. destruct (endswith ".txt" r) eqn:E; [|now left].
    rewrite dict_get_set in H'.
    destruct (String.eqb_spec (key_of r) k) as [Hk|Hk]; [|now left].
    right. exists r. injection H' as <-. auto.
  - right. exists rel. auto.
Qed.

(** X8: the index the metadata scan builds from an empty one lists each
    key once; its keys are exactly the normalized names, without
    extension, of the [.txt] files of the walk; and the path stored under
    a key is the path of one of the files with that key. *)
Theorem scan_wildcard_metadata_index (path : string) (walk : list string) :
  List.NoDup (Dict.keys (scan_wildcard_metadata path walk []))
  /\ (forall k,
         In k (Dict.keys (scan_wildcard_metadata path walk []))
         <-> exists rel, In rel walk /\ endswith ".txt" rel = true
                         /\ k = wildcard_normalize (remove_extension rel))
  /\ (forall k file,
         Dict.get k (scan_wildcard_metadata path walk []) = Some file ->
         exists rel, In rel walk /\ endswith ".txt" rel = true
                     /\ k = wildcard_normalize (remove_extension rel)
                     /\ file = Security.path_join path rel).
Proof.
  split; [|split].
  - apply scan_NoDup. constructor.
  - intros k. rewrite scan_keys. simpl. intuition.
  - intros k file H. destruct (scan_get _ _ _ _ _ H) as [H'|H']; [discriminate|exact H'].
Qed.

(** X9: when several files of the walk have the same key, the index
    keeps the path of the last of them. *)
Theorem scan_wildcard_metadata_last_wins
        (path : string) (before after : list string) (rel : string)
        (avail : list (string * string)) :
  endswith ".txt" rel = true ->
  (forall r, In r after -> endswith ".txt" r = true ->
             wildcard_normalize (remove_extension r)
             <> wildcard_normalize (remove_extension rel)) ->
  Dict.get (wildcard_normalize (remove_extension rel))
           (scan_wildcard_metadata path (before ++ rel :: after) avail)
  = Some (Security.path_join path rel).
Proof.
  intros He Hafter. unfold scan_wildcard_metadata.
  rewrite fold_left_app. simpl.
  generalize (fold_left (scan_step path) before avail). intros d.
  assert (H0 : Dict.get (key_of rel) (scan_step path d rel)
               = Some (Security.path_join path rel)).
  { unfold scan_step. rewrite He, dict_get_set, String.eqb_refl. reflexivity. }
  revert H0. generalize (scan_step path d rel). clear d.
  induction after as [|r after IH]; intros d H0; simpl; [exact H0|].
  apply IH.
  - intros r' Hin. apply Hafter. now right.
  - unfold scan_step. destruct (endswith ".txt" r) eqn:E; [|exact H0].
    rewrite dict_get_set.
    destruct (String.eqb_spec (key_of r) (key_of rel)) as [Hk|Hk]; [|exact H0].
    exfalso. apply (Hafter r); [now left|exact E|exact Hk].
Qed.

End ScanFacts.

(** Two files whose names differ in case only: the second one is kept. *)
Lemma scan_wildcard_metadata_last_wins_witness :
  Dict.get "dragon"
           (Store.scan_wildcard_metadata "/w" ["Dragon.txt"; "dragon.txt"; "notes.md"] [])
  = Some "/w/dragon.txt".
Proof.
  apply (scan_wildcard_metadata_last_wins "/w" ["Dragon.txt"] ["notes.md"] "dragon.txt" []).
  - reflexivity.
  - intros r [<-|[]]. discriminate.
Defined.

(** ** What a lookup does to the store (DESIGN 2.2.1) *)
Section GrowthFacts.
Import Store.
Variable find_wildcard_file : string -> option string.
Variable read_lines : string -> list string.

Local Abbreviation get := (get_wildcard_value find_wildcard_file read_lines).

(** [st'] has the availability index of [st] and every loaded entry of
    [st]. *)
Local Abbreviation grows st st' :=
  (available_wildcards st' = available_wildcards st
   /\ forall k v, loaded_wildcards st !! k = Some v ->
                  loaded_wildcards st' !! k = Some v).

Lemma grows_refl (st : state) : grows st st.
Proof. split; auto. Qed.

Lemma grows_trans (st1 st2 st3 : state) :
  grows st1 st2 -> grows st2 st3 -> grows st1 st3.
Proof. intros [Ha Hl] [Ha' Hl']. split; [congruence|auto]. Qed.

Lemma grows_cache (st st' : state) (key : string) (data : list string) :
  loaded_wildcards st !! key = None -> grows st st' ->
  grows st (cache key data st').
Proof.
  intros Hn [Ha Hl]. split; [exact Ha|]. intros k v Hk. simpl.
  destruct (decide (key = k)) as [->|Hne]; [congruence|].
  rewrite lookup_insert_ne by exact Hne. now apply Hl.
Qed.

Lemma extend_all_grows
      (getd : string -> state -> result (option (list string) * state)) :
  (forall k st r st', getd k st = Ok (r, st') -> grows st st') ->
  forall ms acc st r st',
    extend_all getd ms acc st = Ok (r, st') -> grows st st'.
Proof.
  intros Hget. induction ms as [|m ms IH]; intros acc st r st' H; simpl in H.
  - injection H as _ <-. apply grows_refl.
  - destruct (getd m st) as [[[v|] st1]|e] eqn:E; try discriminate.
    eapply grows_trans; [eapply Hget; exact E|eapply IH; exact H].
Qed.

Lemma get_grows (d : nat) :
  forall key st r st', get d key st = Ok (r, st') -> grows st st'.
Proof.
  induction d as [|d IH]; intros key st r st' H; [discriminate|].
  rewrite get_S in H.
  destruct (loaded_wildcards st !! key) as [v|] eqn:Hl.
  { injection H as _ <-. apply grows_refl. }
  destruct (find_wildcard_file key) as [p|].
  { injection H as _ <-. apply grows_cache; [exact Hl|apply grows_refl]. }
  destruct (matched_keys_of key st) as [|mk rest].
  { injection H as _ <-. apply grows_refl. }
  destruct (extend_all (get_wildcard_value find_wildcard_file read_lines d)
                       (mk :: rest) [] st) as [[w st1]|e] eqn:E; [|discriminate].
  injection H as _ <-. apply grows_cache; [exact Hl|].
  eapply extend_all_grows; [|exact E]. intros k s r' s'. apply IH.
Qed.

Lemma get_cached (d : nat) (key : string) (st st' : state) (v : list string) :
  get d key st = Ok (Some v, st') -> loaded_wildcards st' !! key = Some v.
Proof.
  destruct d as [|d]; [discriminate|]. rewrite get_S.
  destruct (loaded_wildcards st !! key) as [v0|] eqn:Hl.
  { intros [= <- <-]. exact Hl. }
  destruct (find_wildcard_file key) as [p|].
  { intros [= <- <-]. simpl. apply lookup_insert_eq. }
  destruct (matched_keys_of key st) as [|mk rest]; [discriminate|].
  destruct (extend_all _ (mk :: rest) [] st) as [[w st1]|e]; [|discriminate].
  intros [= <- <-]. simpl. apply lookup_insert_eq.
Qed.

Lemma get_None (d : nat) (key : string) (st st' : state) :
  get d key st = Ok (None, st') ->
  st' = st /\ loaded_wildcards st !! key = None
  /\ find_wildcard_file key = None /\ matched_keys_of key st = [].
Proof.
  destruct d as [|d]; [discriminate|]. rewrite get_S.
  destruct (loaded_wildcards st !! key) as [v0|]; [discriminate|].
  destruct (find_wildcard_file key) as [p|]; [discriminate|].
  destruct (matched_keys_of key st) as [|mk rest].
  - intros [= <-]. auto.
  - destruct (extend_all _ (mk :: rest) [] st) as [[w st1]|e]; discriminate.
Qed.

(** X10: a lookup that returns an option list leaves it in the loaded
    index under the requested key, so that every later lookup of the key
    returns the same list from the index and changes nothing; on the way
    the availability index is not touched and no entry of the loaded index
    is removed or replaced. *)
Theorem get_wildcard_value_caches_result
        (depth : nat) (key : string) (st st' : state) (v : list string) :
  get depth key st = Ok (Some v, st') ->
  loaded_wildcards st' !! key = Some v
  /\ (forall d, get (S d) key st' = Ok (Some v, st'))
  /\ available_wildcards st' = available_wildcards st
  /\ (forall k w, loaded_wildcards st !! k = Some w ->
                  loaded_wildcards st' !! k = Some w).
Proof.
  intros H. pose proof (get_cached _ _ _ _ _ H) as Hc.
  destruct (get_grows _ _ _ _ _ H) as [Ha Hl].
  repeat split; auto.
  intros d. rewrite get_S, Hc. reflexivity.
Qed.

(** X11: a lookup that finds nothing leaves the store as it was: the miss
    is not recorded, the key was neither loaded nor found as a file, and
    no key of the availability index matches it. *)
Theorem get_wildcard_value_miss_not_cached
        (depth : nat) (key : string) (st st' : state) :
  get depth key st = Ok (None, st') ->
  st' = st
  /\ loaded_wildcards st !! key = None
  /\ find_wildcard_file key = None
  /\ (forall k, In k (Dict.keys (available_wildcards st)) ->
                matches_depth_agnostic k key = false).
Proof.
  intros H. destruct (get_None _ _ _ _ H) as (-> & Hl & Hf & Hm).
  repeat split; auto.
  intros k Hin. destruct (matches_depth_agnostic k key) eqn:E; [|reflexivity].
  assert (Hk : In k (matched_keys_of key st)).
  { unfold matched_keys_of. apply List.filter_In. auto. }
  rewrite Hm in Hk. destruct Hk.
Qed.

(** X13: a key of the availability index that is neither loaded nor found
    as a file makes every lookup that reaches it through the fallback call
    itself without end: whatever depth the interpreter allows, the lookup
    raises [RecursionError]. *)
Theorem get_wildcard_value_unbacked_key
        (depth : nat) (key m : string) (st : state) :
  loaded_wildcards st !! key = None ->
  find_wildcard_file key = None ->
  In m (Dict.keys (available_wildcards st)) ->
  matches_depth_agnostic m key = true ->
  loaded_wildcards st !! m = None ->
  find_wildcard_file m = None ->
  get depth key st = Raise RecursionError.
Proof.
  intros Hl Hf Hin Hmatch Hlm Hfm.
  destruct depth as [|d]; [reflexivity|].
  rewrite get_S, Hl, Hf.
  assert (Hm : In m (matched_keys_of key st)).
  { unfold matched_keys_of. apply List.filter_In. auto. }
  assert (Hd : direct find_wildcard_file read_lines m st = None).
  { unfold direct. now rewrite Hlm, Hfm. }
  assert (Hx : forall acc,
             extend_all (get_wildcard_value find_wildcard_file read_lines d)
                        (matched_keys_of key st) acc st = Raise RecursionError).
  { intros acc.
    apply (extend_all_stuck find_wildcard_file read_lines st).
    - intros st1 k Hco Hk Hdk. now apply (get_stuck _ _ st).
    - intros st1 k v Hco Hdk. destruct d as [|d]; [now left|right].
      now apply (get_direct _ _ st).
    - apply coherent_refl.
    - intros m' Hm'. eapply (matched_keys_in find_wildcard_file read_lines); exact Hm'.
    - exists m. auto. }
  specialize (Hx []).
  destruct (matched_keys_of key st) as [|mk rest]; [destruct Hm|].
  now rewrite Hx.
Qed.

End GrowthFacts.

(** A key with a backing file, looked up in an empty store. *)
Lemma get_wildcard_value_caches_result_witness :
  Store.loaded_wildcards
    (Store.cache "dragon" ["red"; "blue"] (Store.State ∅ [])) !! "dragon"
  = Some ["red"; "blue"].
Proof.
  assert (H : Store.get_wildcard_value
                (fun _ => Some "/w/dragon.txt")
                (fun _ => ["red"; "# a comment"; "blue"])
                1 "dragon" (Store.State ∅ [])
              = Ok (Some ["red"; "blue"],
                    Store.cache "dragon" ["red"; "blue"] (Store.State ∅ [])))
    by (vm_compute; reflexivity).
  exact (proj1 (get_wildcard_value_caches_result _ _ _ _ _ _ _ H)).
Defined.

(** A key that names nothing, looked up in the store of the dragons. *)
Lemma get_wildcard_value_miss_not_cached_witness :
  Store.loaded_wildcards Examples.dragon_state !! "unicorn" = None
  /\ Examples.dragon_find "unicorn" = None
  /\ Store.matches_depth_agnostic "dragon/fire" "unicorn" = false.
Proof.
  assert (H : Store.get_wildcard_value
                Examples.dragon_find Examples.dragon_read
                5 "unicorn" Examples.dragon_state
              = Ok (None, Examples.dragon_state))
    by (vm_compute; reflexivity).
  destruct (get_wildcard_value_miss_not_cached _ _ _ _ _ _ H) as (_ & H2 & H3 & H4).
  split; [exact H2|]. split; [exact H3|].
  apply H4. vm_compute. auto.
Defined.

(** An index entry whose file is gone, reached through the fallback. *)
Lemma get_wildcard_value_unbacked_key_witness :
  Store.get_wildcard_value (fun _ => None) (fun _ => []) Store.recursion_limit
                           "dragon" (Store.State ∅ [("fantasy/dragon", "/w/fantasy/dragon.txt")])
  = Raise RecursionError.
Proof.
  apply (get_wildcard_value_unbacked_key (fun _ => None) (fun _ => [])
           Store.recursion_limit "dragon" "fantasy/dragon");
    try (vm_compute; reflexivity).
  left; reflexivity.
Defined.

(** ** What a call of [process] does to the store (DESIGN 2.1.1) *)
Section ProcessGrowthFacts.
Import Store Engine.
Context {G : Type}.
Variable seed_rng : Z -> G.
Variable random : G -> Q * G.
Variable find_wildcard_file : string -> option string.
Variable read_lines : string -> list string.

Local Abbreviation grows st st' :=
  (available_wildcards st' = available_wildcards st
   /\ forall k v, loaded_wildcards st !! k = Some v ->
                  loaded_wildcards st' !! k = Some v).

(** A call that, when it returns, has only added entries to the loaded
    index. *)
Local Abbreviation keeps m :=
  (forall st x st', m st = Ok (x, st') -> grows st st').

Lemma keeps_ret {X : Type} (x : X) : keeps (ret x).
Proof. intros st y st' [= _ <-]. apply grows_refl. Qed.

Lemma keeps_bind {X Y : Type} (m : M X) (k : X -> M Y) :
  keeps m -> (forall x, keeps (k x)) -> keeps (bind m k).
Proof.
  intros Hm Hk st y st' H. unfold bind in H.
  destruct (m st) as [[x st1]|e] eqn:E; [|discriminate].
  eapply grows_trans; [eapply Hm; exact E|eapply Hk; exact H].
Qed.

Lemma resolve_keeps (key : string) :
  keeps (resolve find_wildcard_file read_lines key).
Proof. intros st x st'. apply get_grows. Qed.

Lemma pattern_options_keeps (keyword : string) :
  keeps (pattern_options find_wildcard_file read_lines keyword).
Proof.
  unfold pattern_options. destruct (startswith "*/" keyword); [|apply keeps_ret].
  intros st x st'. apply extend_all_grows. intros k. apply resolve_keeps.
Qed.

Lemma replace_ref_keeps (name : string) (g : G) :
  keeps (replace_ref random find_wildcard_file read_lines name g).
Proof.
  unfold replace_ref. apply keeps_bind; [apply resolve_keeps|].
  intros [[|o os]|].
  - destruct (contains "*" (wildcard_normalize name)); [|apply keeps_ret].
    apply keeps_bind; [apply pattern_options_keeps|].
    intros [|o os]; apply keeps_ret.
  - apply keeps_ret.
  - destruct (contains "*" (wildcard_normalize name)); [|apply keeps_ret].
    apply keeps_bind; [apply pattern_options_keeps|].
    intros [|o os]; apply keeps_ret.
Qed.

Lemma replace_tokens_keeps (tks : list token) :
  forall g, keeps (replace_tokens random find_wildcard_file read_lines tks g).
Proof.
  induction tks as [|tk tks IH]; intros g; simpl; [apply keeps_ret|].
  apply keeps_bind.
  - destruct tk; simpl; try apply keeps_ret. apply replace_ref_keeps.
  - intros r1. apply keeps_bind; [apply IH|]. intros r2. apply keeps_ret.
Qed.

Lemma expand_keeps (n : nat) :
  forall text g passes,
    keeps (expand random find_wildcard_file read_lines n text g passes).
Proof.
  induction n as [|n IH]; intros text g passes; simpl; [apply keeps_ret|].
  apply keeps_bind.
  - unfold process_one_pass, replace_wildcard. apply replace_tokens_keeps.
  - intros r. destruct (String.eqb (fst r) text); [apply keeps_ret|apply IH].
Qed.

(** X14: a call of [process] that returns has not touched the
    availability index and has removed or replaced no entry of the loaded
    index: whatever the text, it only adds the option lists it had to
    load. *)
Theorem process_store_grows
        (text : string) (seed : Z) (st st' : state) (o : outcome) :
  process seed_rng random find_wildcard_file read_lines text seed st = Ok (o, st') ->
  available_wildcards st' = available_wildcards st
  /\ (forall k v, loaded_wildcards st !! k = Some v ->
                  loaded_wildcards st' !! k = Some v).
Proof. unfold process. apply expand_keeps. Qed.

End ProcessGrowthFacts.

(** A text with one reference, in the store of the dragons with the key
    [swamp] loaded beforehand. *)
Lemma process_store_grows_witness :
  exists o st',
    Engine.process (fun z : Z => z) Examples.lcg
                   Examples.dragon_find Examples.dragon_read
                   "a __dragon__" 7%Z
                   (Store.cache "swamp" ["bog"] Examples.dragon_state)
    = Ok (o, st')
    /\ Store.loaded_wildcards st' !! "swamp" = Some ["bog"].
Proof.
  destruct (Engine.process (fun z : Z => z) Examples.lcg
                           Examples.dragon_find Examples.dragon_read
                           "a __dragon__" 7%Z
                           (Store.cache "swamp" ["bog"] Examples.dragon_state))
    as [[o st']|e] eqn:E.
  - exists o, st'. split; [reflexivity|].
    apply (proj2 (process_store_grows _ _ _ _ _ _ _ _ _ E)).
    vm_compute; reflexivity.
  - exfalso. vm_compute in E. discriminate E.
Defined.

(** ** Listing of the loaded wildcards (DESIGN 3.2) *)
Section ListingFacts.
Import Store Server.
Variable find_wildcard_file : string -> option string.
Variable read_lines : string -> list string.

Lemma dict_keys_In (m : gmap string (list string)) (k : string) :
  In k (dict_keys m) <-> exists v, m !! k = Some v.
Proof.
  unfold dict_keys. rewrite in_map_iff. split.
  - intros ([k' v] & <- & Hin). exists v.
    apply elem_of_map_to_list. now apply list_elem_of_In.
  - intros [v Hv]. exists (k, v). split; [reflexivity|].
    apply list_elem_of_In. now apply elem_of_map_to_list.
Qed.

Lemma dict_keys_length (m : gmap string (list string)) :
  length (dict_keys m) = size m.
Proof. unfold dict_keys. rewrite length_map. apply length_map_to_list. Qed.

(** X15: in on-demand mode, a lookup that returns an option list shows
    in the listing: the requested key is listed afterwards, every name
    listed before is still listed, the list has not become shorter and the
    number of available wildcards is the same. *)
Theorem get_loaded_wildcards_after_lookup
        (sv : server) (depth : nat) (key : string) (v : list string) (st' : state) :
  on_demand_mode sv = true ->
  get_wildcard_value find_wildcard_file read_lines depth key (store sv)
  = Ok (Some v, st') ->
  let before := get_loaded_wildcards sv in
  let after := get_loaded_wildcards (Server true (wildcard_dict sv) st') in
  In (wildcard_name key) (data after)
  /\ (forall x, In x (data before) -> In x (data after))
  /\ length (data before) <= length (data after)
  /\ total_available after = total_available before.
Proof.
  intros Hmode H. unfold get_loaded_wildcards. rewrite Hmode. simpl.
  pose proof (get_cached _ _ _ _ _ _ _ H) as Hc.
  destruct (get_grows _ _ _ _ _ _ _ H) as [Ha Hl].
  split; [|split; [|split]].
  - apply in_map. apply dict_keys_In. now exists v.
  - intros x Hx. apply in_map_iff in Hx as (k & <- & Hk).
    apply in_map. apply dict_keys_In. apply dict_keys_In in Hk as [w Hw].
    exists w. now apply Hl.
  - rewrite !length_map, !dict_keys_length. apply map_subseteq_size.
    apply map_subseteq_spec. exact Hl.
  - now rewrite Ha.
Qed.

End ListingFacts.

(** The first lookup of [dragon] on a server in on-demand mode. *)
Lemma get_loaded_wildcards_after_lookup_witness :
  In "__dragon__"
     (Server.data
        (Server.get_loaded_wildcards
           (Server.Server true ∅
              (Store.cache "dragon" ["red"] (Store.State ∅ []))))).
Proof.
  assert (H : Store.get_wildcard_value
                (fun _ => Some "/w/dragon.txt") (fun _ => ["red"])
                1 "dragon" (Server.store (Server.Server true ∅ (Store.State ∅ [])))
              = Ok (Some ["red"], Store.cache "dragon" ["red"] (Store.State ∅ [])))
    by (vm_compute; reflexivity).
  exact (proj1 (get_loaded_wildcards_after_lookup
                  _ _ (Server.Server true ∅ (Store.State ∅ [])) _ _ _ _ eq_refl H)).
Defined.

(** ** Quotes around a configured path (SUMMARY "Config Path Quotes") *)
Section ConfigFacts.
Import Config.

(** Every character of [q] is one of [chars]. *)
Local Abbreviation all_in chars q :=
  (forall c, has_char c q = true -> has_char c chars = true).

Lemma has_char_rev (c : ascii) (s : string) : has_char c (rev s) = has_char c s.
Proof.
  induction s as [|a s IH]; [reflexivity|].
  rewrite rev_cons, has_char_app, IH. simpl.
  rewrite orb_false_r. apply orb_comm.
Qed.

Lemma startswith_char (c a : ascii) (s : string) :
  startswith (String c "") (String a s) = Ascii.eqb c a.
Proof. simpl. apply andb_true_r. Qed.

Lemma endswith_char (c : ascii) (s : string) :
  endswith (String c "") s = startswith (String c "") (rev s).
Proof. reflexivity. Qed.

Lemma lstrip_chars_app (chars q s : string) :
  all_in chars q -> lstrip_chars chars (q +:+ s) = lstrip_chars chars s.
Proof.
  induction q as [|a q IH]; intros Hq; [reflexivity|].
  change (String a q +:+ s) with (String a (q +:+ s)). simpl.
  rewrite (Hq a) by (simpl; now rewrite Ascii.eqb_refl).
  apply IH. intros c Hc. apply Hq. simpl. rewrite Hc. apply orb_true_r.
Qed.

Lemma lstrip_chars_all (chars q : string) :
  all_in chars q -> lstrip_chars chars q = "".
Proof.
  intros Hq. rewrite <- (app_empty_r q). now rewrite lstrip_chars_app.
Qed.

Lemma lstrip_chars_fixed (chars p : string) :
  (forall c, has_char c chars = true -> startswith (String c "") p = false) ->
  lstrip_chars chars p = p.
Proof.
  destruct p as [|a p]; [reflexivity|]. intros H. simpl.
  destruct (has_char a chars) eqn:E; [|reflexivity].
  specialize (H a E). rewrite startswith_char, Ascii.eqb_refl in H. discriminate.
Qed.

Lemma lstrip_chars_head (chars s : string) (c : ascii) :
  has_char c chars = true ->
  startswith (String c "") (lstrip_chars chars s) = false.
Proof.
  intros Hc. induction s as [|a s IH]; [reflexivity|]. cbn [lstrip_chars].
  destruct (has_char a chars) eqn:E; [exact IH|].
  rewrite startswith_char. destruct (Ascii.eqb_spec c a); [congruence|reflexivity].
Qed.

Lemma lstrip_chars_last (chars s : string) (a : ascii) :
  has_char a chars = false ->
  exists t, lstrip_chars chars (s +:+ String a "") = t +:+ String a "".
Proof.
  intros Ha. induction s as [|b s IH].
  - exists "". simpl. now rewrite Ha.
  - change (String b s +:+ String a "") with (String b (s +:+ String a "")).
    simpl. destruct (has_char b chars); [exact IH|]. now exists (String b s).
Qed.

Lemma strip_chars_affixes (chars q1 p q2 : string) :
  all_in chars q1 -> all_in chars q2 ->
  (forall c, has_char c chars = true ->
             startswith (String c "") p = false
             /\ endswith (String c "") p = false) ->
  strip_chars chars (q1 +:+ p +:+ q2) = p.
Proof.
  intros H1 H2 Hp. unfold strip_chars.
  rewrite lstrip_chars_app by exact H1.
  destruct p as [|a p].
  - change ("" +:+ q2) with q2. rewrite (lstrip_chars_all chars q2 H2). reflexivity.
  - rewrite (lstrip_chars_fixed chars (String a p +:+ q2)).
    + rewrite rev_app, lstrip_chars_app.
      * rewrite lstrip_chars_fixed; [apply rev_involutive|].
        intros c Hc. rewrite <- endswith_char. now apply Hp.
      * intros c. rewrite has_char_rev. apply H2.
    + intros c Hc. change (String a p +:+ q2) with (String a (p +:+ q2)).
      rewrite startswith_char.
      destruct (Hp c Hc) as [Hs _]. now rewrite startswith_char in Hs.
Qed.

Lemma strip_chars_ends (chars s : string) (c : ascii) :
  has_char c chars = true ->
  startswith (String c "") (strip_chars chars s) = false
  /\ endswith (String c "") (strip_chars chars s) = false.
Proof.
  intros Hc. unfold strip_chars. split.
  - destruct (lstrip_chars chars s) as [|a y] eqn:E; [reflexivity|].
    assert (Ha : has_char a chars = false).
    { destruct (has_char a chars) eqn:Ha; [|reflexivity].
      pose proof (lstrip_chars_head chars s a Ha) as H.
      rewrite E, startswith_char, Ascii.eqb_refl in H. discriminate. }
    rewrite rev_cons. destruct (lstrip_chars_last chars (rev y) a Ha) as [t ->].
    rewrite rev_app. change (rev (String a "") +:+ rev t) with (String a (rev t)).
    rewrite startswith_char. destruct (Ascii.eqb_spec c a); [congruence|reflexivity].
  - rewrite endswith_char, rev_involutive. now apply lstrip_chars_head.
Qed.

(** X16: a configured path written between quotes, single or double, in
    any number and on either side, is read as the bare path, provided the
    path itself neither begins nor ends with a quote. *)
Theorem custom_wildcards_path_quoted
        (default_conf : list (string * string)) (q1 p q2 : string) :
  Dict.get "custom_wildcards" default_conf = Some (q1 +:+ p +:+ q2) ->
  (forall c, has_char c q1 = true -> has_char c quotes = true) ->
  (forall c, has_char c q2 = true -> has_char c quotes = true) ->
  (forall c, has_char c quotes = true ->
             startswith (String c "") p = false
             /\ endswith (String c "") p = false) ->
  custom_wildcards_path default_conf = p.
Proof.
  intros Hget H1 H2 Hp. unfold custom_wildcards_path, conf_get. rewrite Hget.
  now apply strip_chars_affixes.
Qed.

(** X17: the configured path that is read never begins or ends with a
    quote, stripping it again changes nothing, and it is empty when the
    configuration has no such entry. *)
Theorem custom_wildcards_path_bare (default_conf : list (string * string)) :
  (forall c, has_char c quotes = true ->
             startswith (String c "") (custom_wildcards_path default_conf) = false
             /\ endswith (String c "") (custom_wildcards_path default_conf) = false)
  /\ strip_chars quotes (custom_wildcards_path default_conf)
     = custom_wildcards_path default_conf
  /\ (Dict.get "custom_wildcards" default_conf = None ->
      custom_wildcards_path default_conf = "").
Proof.
  unfold custom_wildcards_path. split; [|split].
  - intros c Hc. now apply strip_chars_ends.
  - set (p := strip_chars quotes (conf_get "custom_wildcards" "" default_conf)).
    assert (H : strip_chars quotes ("" +:+ p +:+ "") = p).
    { apply strip_chars_affixes; try discriminate.
      intros c Hc. now apply strip_chars_ends. }
    change ("" +:+ p +:+ "") with (p +:+ "") in H.
    now rewrite app_empty_r in H.
  - unfold conf_get. now intros ->.
Qed.

End ConfigFacts.

(** ** Comment and blank lines of a backing file (DESIGN 4.1) *)
Section LineFacts.
Import Loader.

Lemma lstrip_head (s : string) (a : ascii) (y : string) :
  lstrip s = String a y -> is_space a = false.
Proof.
  induction s as [|b s IH]; simpl; [discriminate|].
  destruct (is_space b) eqn:E; [exact IH|]. intros [= <- _]. exact E.
Qed.

Lemma lstrip_last (s : string) (a : ascii) :
  is_space a = false ->
  exists t, lstrip (s +:+ String a "") = t +:+ String a "".
Proof.
  intros Ha. induction s as [|b s IH].
  - exists "". simpl. now rewrite Ha.
  - change (String b s +:+ String a "") with (String b (s +:+ String a "")).
    simpl. destruct (is_space b); [exact IH|]. now exists (String b s).
Qed.

(** Trimming keeps the first character that is not white space. *)
Lemma strip_head (x : string) :
  match lstrip x with
  | EmptyString => strip x = EmptyString
  | String a _ => exists z, strip x = String a z
  end.
Proof.
  unfold strip. destruct (lstrip x) as [|a y] eqn:E; [reflexivity|].
  pose proof (lstrip_head _ _ _ E) as Ha.
  rewrite rev_cons. destruct (lstrip_last (rev y) a Ha) as [t ->].
  rewrite rev_app. now exists (rev t).
Qed.

(** X18: whether a line of a backing file is a comment, and whether it is
    blank, is decided by its first character that is not white space: a
    line is a comment exactly when that character is [#], and blank
    exactly when there is none.  White space at the end of the line, and a
    [#] after other text, play no part. *)
Theorem is_comment_first_character (x : string) :
  is_comment x = startswith "#" (lstrip x)
  /\ is_blank x = is_empty (lstrip x).
Proof.
  unfold is_comment, is_blank. pose proof (strip_head x) as H.
  destruct (lstrip x) as [|a y].
  - rewrite H. auto.
  - destruct H as [z ->]. auto.
Qed.

(** C8: the filter of a flat backing file goes through the lines in file
    order, drops a line that is empty after trimming or whose first
    character after the leading white space is [#], and keeps every other
    line as it is, as one entry: an entry of the result is a line of the
    file that is neither, and lines that occur several times are kept as
    often.  So for the file [rose], empty line, blanks, [# note], an
    indented comment, [tulip], [rose]. *)
Theorem filter_lines_excludes_blank_and_comment :
  filter_lines [] = []
  /\ (forall x rest,
         is_empty (strip x) = true \/ startswith "#" (lstrip x) = true ->
         filter_lines (x :: rest) = filter_lines rest)
  /\ (forall x rest,
         is_empty (strip x) = false -> startswith "#" (lstrip x) = false ->
         filter_lines (x :: rest) = x :: filter_lines rest)
  /\ (forall lines x,
         In x (filter_lines lines)
         <-> In x lines /\ is_empty (strip x) = false
             /\ startswith "#" (lstrip x) = false)
  /\ (forall l1 l2, filter_lines (l1 ++ l2) = filter_lines l1 ++ filter_lines l2)
  /\ filter_lines ["rose"; ""; "   "; "# note"; "  # indented"; "tulip"; "rose"]
     = ["rose"; "tulip"; "rose"].
Proof.
  assert (Hc : forall x, is_comment x = startswith "#" (lstrip x)).
  { intros x. unfold is_comment. pose proof (strip_head x) as H.
    destruct (lstrip x) as [|a y]; [now rewrite H|]. now destruct H as [z ->]. }
  split; [reflexivity|]. split; [|split; [|split; [|split]]].
  - intros x rest H. unfold filter_lines. cbn [List.filter].
    fold (is_blank x). unfold is_blank at 1. rewrite Hc.
    destruct H as [-> | ->]; [reflexivity|]. now rewrite andb_false_r.
  - intros x rest Hb Hs. unfold filter_lines. cbn [List.filter].
    unfold is_blank. now rewrite Hc, Hb, Hs.
  - intros lines x. rewrite filter_lines_spec. unfold is_blank. now rewrite Hc.
  - apply filter_lines_app.
  - reflexivity.
Qed.

End LineFacts.

(** A path between double quotes, as the configuration tests write it. *)
Lemma custom_wildcards_path_quoted_witness :
  Config.custom_wildcards_path
    [("custom_wildcards",
      String (ascii_of_nat 34) EmptyString +:+ "/opt/my wildcards"
      +:+ String (ascii_of_nat 34) EmptyString)]
  = "/opt/my wildcards".
Proof.
  apply (custom_wildcards_path_quoted _ (String (ascii_of_nat 34) EmptyString)
                                      "/opt/my wildcards"
                                      (String (ascii_of_nat 34) EmptyString)).
  - reflexivity.
  - intros c H. cbn [has_char] in H. rewrite orb_false_r in H.
    apply Ascii.eqb_eq in H as <-. reflexivity.
  - intros c H. cbn [has_char] in H. rewrite orb_false_r in H.
    apply Ascii.eqb_eq in H as <-. reflexivity.
  - intros c H. unfold Config.quotes in H. cbn [has_char] in H.
    rewrite orb_false_r in H.
    apply orb_true_iff in H as [H|H]; apply Ascii.eqb_eq in H as <-;
      split; reflexivity.
Defined.

(** ** Output ports of the inversed switch node *)
Section SwitchFacts.
Import Switch.

Local Abbreviation free := (fun o : output => negb (connected o)).

Lemma count_connected (outputs : list output) (n : nat) :
  fold_left (fun acc o => acc + (if connected o then 1 else 0)) outputs n
  = n + length (List.filter connected outputs).
Proof.
  revert n. induction outputs as [|o outputs IH]; intros n; simpl; [lia|].
  rewrite IH. destruct (connected o); simpl; lia.
Qed.

Lemma filter_connected_free (outputs fresh : list output) :
  List.Forall (fun o => connected o = false) fresh ->
  List.filter connected (outputs ++ fresh) = List.filter connected outputs.
Proof.
  intros H. rewrite List.filter_app.
  replace (List.filter connected fresh) with (@nil output); [apply app_nil_r|].
  induction H as [|o fresh Ho _ IH]; [reflexivity|]. simpl. now rewrite Ho.
Qed.

Lemma add_outputs_spec (gap : nat) :
  forall currentCount outputs,
  exists fresh,
    add_outputs gap currentCount outputs = (currentCount + gap, outputs ++ fresh)
    /\ List.Forall (fun o => connected o = false) fresh
    /\ length fresh = gap.
Proof.
  induction gap as [|gap IH]; intros cc outputs; simpl.
  - exists []. rewrite app_nil_r, Nat.add_0_r. repeat split. constructor.
  - destruct (IH (S cc) (addOutput (output_name (cc + 1)) _type outputs))
      as (fresh & -> & Hfree & Hlen).
    exists (Output (output_name (cc + 1)) None _type None :: fresh).
    unfold addOutput. rewrite <- app_assoc. simpl. repeat split.
    + f_equal. lia.
    + constructor; [reflexivity|exact Hfree].
    + now rewrite Hlen.
Qed.

Lemma remove_outputs_spec (gap : nat) :
  forall outputs,
  exists removed,
    outputs = remove_outputs gap outputs ++ removed
    /\ List.Forall (fun o => connected o = false) removed
    /\ length removed <= gap
    /\ (length removed = gap
        \/ remove_outputs gap outputs = []
        \/ exists o, last (remove_outputs gap outputs) = Some o
                     /\ connected o = true).
Proof.
  induction gap as [|gap IH]; intros outputs; simpl.
  - exists []. rewrite app_nil_r. repeat split; [constructor|simpl; lia|now left].
  - destruct (last outputs) as [o|] eqn:El.
    + destruct (connected o) eqn:Ec; simpl.
      * exists []. rewrite app_nil_r. repeat split; [constructor|simpl; lia|].
        right; right. exists o. auto.
      * apply last_Some in El as [l' ->]. rewrite List.removelast_last.
        destruct (IH l') as (removed & Heq & Hfree & Hlen & Hend).
        exists (removed ++ [o]). repeat split.
        -- rewrite app_assoc, <- Heq. reflexivity.
        -- apply List.Forall_app. split; [exact Hfree|].
           constructor; [exact Ec|constructor].
        -- rewrite length_app. simpl. lia.
        -- destruct Hend as [H|H]; [left|right; exact H].
           rewrite length_app. simpl. lia.
    + apply last_None in El as ->. exists []. repeat split; [constructor|simpl; lia|].
      right; left. reflexivity.
Qed.

Lemma rename_links (i : nat) (o : output) :
  links (rename i o) = links o /\ connected (rename i o) = connected o
  /\ name (rename i o) = output_name (i + 1)
  /\ rename i (rename i o) = rename i o.
Proof.
  unfold rename.
  destruct (String.eqb_spec (name o) (output_name (i + 1))) as [E|E]; simpl.
  - repeat split; try exact E.
    destruct (String.eqb_spec (name o) (output_name (i + 1))); [reflexivity|contradiction].
  - repeat split. unfold rename. simpl. now rewrite String.eqb_refl.
Qed.

Lemma rename_from_links (outputs : list output) (i : nat) :
  map links (List.filter connected (rename_from i outputs))
  = map links (List.filter connected outputs).
Proof.
  revert i. induction outputs as [|o outputs IH]; intros i; simpl; [reflexivity|].
  destruct (rename_links i o) as (Hl & Hc & _). rewrite Hc.
  destruct (connected o); simpl; [rewrite Hl|]; now rewrite IH.
Qed.

Lemma rename_from_length (outputs : list output) (i : nat) :
  length (rename_from i outputs) = length outputs.
Proof.
  revert i. induction outputs as [|o outputs IH]; intros i; simpl; [reflexivity|].
  now rewrite IH.
Qed.

Lemma rename_from_nth (outputs : list output) :
  forall i k o,
    nth_error (rename_from i outputs) k = Some o -> name o = output_name (i + k + 1).
Proof.
  induction outputs as [|o' outputs IH]; intros i k o H.
  - destruct k; discriminate.
  - destruct k as [|k]; simpl in H.
    + injection H as <-. rewrite Nat.add_0_r. apply rename_links.
    + apply IH in H. rewrite H. f_equal. lia.
Qed.

Lemma rename_from_idem (outputs : list output) (i : nat) :
  rename_from i (rename_from i outputs) = rename_from i outputs.
Proof.
  revert i. induction outputs as [|o outputs IH]; intros i; simpl; [reflexivity|].
  destruct (rename_links i o) as (_ & _ & _ & ->). now rewrite IH.
Qed.

Lemma rename_from_last (outputs : list output) (i : nat) (o : output) :
  last outputs = Some o -> connected o = true ->
  exists o', last (rename_from i outputs) = Some o' /\ connected o' = true.
Proof.
  revert i. induction outputs as [|a outputs IH]; intros i Hl Hc; [discriminate|].
  destruct outputs as [|b outputs].
  - injection Hl as ->. exists (rename i o). split; [reflexivity|].
    destruct (rename_links i o) as (_ & -> & _). exact Hc.
  - apply (IH (S i) Hl Hc).
Qed.

Lemma remove_outputs_break (gap : nat) (outputs : list output) (o : output) :
  last outputs = Some o -> connected o = true ->
  remove_outputs gap outputs = outputs.
Proof. intros Hl Hc. destruct gap; simpl; [reflexivity|]. now rewrite Hl, Hc. Qed.

(** What [manageOutputs] leaves before the renaming: the connected slots
    of the node, at least one slot more than those, and no free slot at
    the end beyond that number. *)
Lemma manageOutputs_spec (outputs : list output) :
  exists kept,
    manageOutputs outputs = rename_from 0 kept
    /\ List.filter connected kept = List.filter connected outputs
    /\ length (List.filter connected outputs) + 1 <= length kept
    /\ (length kept = length (List.filter connected outputs) + 1
        \/ exists o, last kept = Some o /\ connected o = true).
Proof.
  unfold manageOutputs. rewrite count_connected. simpl.
  set (c := length (List.filter connected outputs)).
  replace (Nat.max MIN_OUTPUTS (c + 1)) with (c + 1) by (unfold MIN_OUTPUTS; lia).
  destruct (add_outputs_spec (c + 1 - length outputs) (length outputs) outputs)
    as (fresh & -> & Hfresh & Hlen).
  destruct (remove_outputs_spec (length outputs + (c + 1 - length outputs) - (c + 1))
                                (outputs ++ fresh))
    as (removed & Heq & Hfree & Hle & Hend).
  set (kept := remove_outputs _ (outputs ++ fresh)) in *.
  exists kept.
  assert (Hsize : length kept + length removed
                  = length outputs + (c + 1 - length outputs)).
  { rewrite <- length_app, <- Heq, length_app. lia. }
  split; [reflexivity|]. split; [|split].
  - rewrite <- (filter_connected_free kept removed Hfree), <- Heq.
    now apply filter_connected_free.
  - lia.
  - destruct Hend as [H|[H|H]]; [left; lia| |right; exact H].
    rewrite H in Hsize. simpl in Hsize. lia.
Qed.

Lemma manageOutputs_links_length (outputs : list output) :
  length (map links (List.filter connected (manageOutputs outputs)))
  = length (List.filter connected outputs).
Proof.
  destruct (manageOutputs_spec outputs) as (kept & -> & Hc & _).
  now rewrite rename_from_links, Hc, length_map.
Qed.

(** X19: [manageOutputs] never touches a connected output: the connected
    outputs of the node are the same after the call, with the same links
    and in the same order. *)
Theorem manageOutputs_keeps_connections (outputs : list output) :
  map links (List.filter connected (manageOutputs outputs))
  = map links (List.filter connected outputs).
Proof.
  destruct (manageOutputs_spec outputs) as (kept & -> & Hc & _).
  now rewrite rename_from_links, Hc.
Qed.

(** X20: after [manageOutputs] the node has more outputs than connected
    ones, so at least one output and at least one without a link, and its
    outputs are named [Output_1], [Output_2], ... in their order. *)
Theorem manageOutputs_free_output (outputs : list output) :
  length (List.filter connected outputs) + 1 <= length (manageOutputs outputs)
  /\ (exists o, In o (manageOutputs outputs) /\ connected o = false)
  /\ (forall i o, nth_error (manageOutputs outputs) i = Some o ->
                  name o = output_name (i + 1)).
Proof.
  destruct (manageOutputs_spec outputs) as (kept & E & Hc & Hlen & _).
  split; [|split].
  - now rewrite E, rename_from_length.
  - assert (Hlt : length (List.filter connected (manageOutputs outputs))
                  < length (manageOutputs outputs)).
    { rewrite <- (length_map links), manageOutputs_links_length.
      rewrite E, rename_from_length. lia. }
    revert Hlt. generalize (manageOutputs outputs). intros l.
    induction l as [|o l IH]; simpl; [lia|].
    destruct (connected o) eqn:Ec.
    + simpl. intros H. destruct IH as (o' & Hin & Ho'); [lia|]. exists o'. auto.
    + intros _. exists o. auto.
  - intros i o H. rewrite E in H. now apply rename_from_nth in H.
Qed.

(** X21: calling [manageOutputs] a second time changes nothing. *)
Theorem manageOutputs_idempotent (outputs : list output) :
  manageOutputs (manageOutputs outputs) = manageOutputs outputs.
Proof.
  destruct (manageOutputs_spec outputs) as (kept & E & Hc & Hlen & Hend).
  assert (Hcount : length (List.filter connected (rename_from 0 kept))
                   = length (List.filter connected outputs)).
  { rewrite <- (length_map links), rename_from_links, length_map. now rewrite Hc. }
  rewrite E. unfold manageOutputs at 1. rewrite count_connected. simpl.
  rewrite Hcount, rename_from_length.
  set (c := length (List.filter connected outputs)) in *.
  replace (Nat.max MIN_OUTPUTS (c + 1)) with (c + 1) by (unfold MIN_OUTPUTS; lia).
  replace (c + 1 - length kept) with 0 by lia. simpl.
  destruct Hend as [H|(o & Hl & Ho)].
  - replace (length kept - (c + 1)) with 0 by lia. simpl. apply rename_from_idem.
  - destruct (rename_from_last kept 0 o Hl Ho) as (o' & Hl' & Ho').
    rewrite (remove_outputs_break _ _ o' Hl' Ho'). apply rename_from_idem.
Qed.

(** X22: after a change at an output, the value of the [Path] widget is
    at most the number of outputs, which is the upper bound of the widget
    and at least one; a value within the bound is kept; and every output
    carries the type of the input and its name as label. *)
Theorem onOutputChange_path_in_range
        (newType : string) (outputs : list output) (pathWidget : widget) :
  let node' := onOutputChange newType (outputs, pathWidget) in
  max (snd node') = Z.of_nat (length (fst node'))
  /\ (1 <= max (snd node'))%Z
  /\ (value (snd node') <= max (snd node'))%Z
  /\ ((value pathWidget <= max (snd node'))%Z ->
      value (snd node') = value pathWidget)
  /\ (forall i o, nth_error (fst node') i = Some o ->
                  name o = output_name (i + 1)
                  /\ label o = Some (name o) /\ type o = newType).
Proof.
  unfold onOutputChange, updatePathWidget; simpl.
  destruct (manageOutputs_spec outputs) as (kept & E & _ & Hlen & _).
  assert (Hpos : (0 < Z.of_nat (length (updateTypes newType (manageOutputs outputs))))%Z).
  { unfold updateTypes. rewrite length_map, E, rename_from_length. lia. }
  apply Z.ltb_lt in Hpos as Hb. rewrite Hb.
  split; [reflexivity|]. split; [lia|]. split; [lia|]. split; [lia|].
  intros i o H. unfold updateTypes in H. rewrite nth_error_map in H.
  destruct (nth_error (manageOutputs outputs) i) as [o0|] eqn:E0; [|discriminate].
  injection H as <-. simpl. rewrite E in E0. apply rename_from_nth in E0.
  auto.
Qed.

End SwitchFacts.
